(** * RepositoriesTable: sorting and filtering of the repository grid

    A shallow embedding of [who-metrics-ui/src/components/RepositoriesTable.tsx]:
    the comparators built by [getComparator], the multi-column sort callback of
    [sortRepos], the row predicate of [filterRepos] and the pipeline
    [filterRepos(sortRepos(repos))] that feeds the data grid.

    Conventions of the embedding:
    - JavaScript numbers are integers ([Z]) extended with [Infinity]; the record
      counters and the bounds typed into the header inputs are integers.
    - JavaScript strings are Rocq strings holding the UTF-8 encoding of their
      characters; on ASCII text a byte is a code unit.
    - arrays live in a heap of array objects addressed by references, so that
      [[...inputRepos]], the in-place [sort] and the [return repos] alias are
      visible;
    - a thrown [Error] is an explicit completion, threaded by a small monad;
    - [String.prototype.localeCompare] is the platform's collation and is a
      parameter of the development. *)

From Stdlib Require Import ZArith String Ascii List Bool Lia Sorted Permutation.
From stdpp Require Import base option list strings.

Local Open Scope string_scope.
Local Open Scope list_scope.
Local Open Scope Z_scope.

(** ** The fragment of JavaScript used by the component *)

Module JS.

(** Numbers: integers and [Infinity]. *)
Inductive number :=
| Num (z : Z)
| Infinity.

(** [x <= y] on numbers. *)
Definition le (x y : number) : bool :=
  match x, y with
  | Num a, Num b => a <=? b
  | _, Infinity => true
  | Infinity, Num _ => false
  end.

(** Values whose truthiness the component tests.  [VObject] stands for an
    object reference (an array here); its content is read through the typed
    records below. *)
Inductive value :=
| VUndefined
| VBoolean (b : bool)
| VNumber (n : number)
| VString (s : string)
| VObject.

Definition ToBoolean (v : value) : bool :=
  match v with
  | VUndefined => false
  | VBoolean b => b
  | VNumber (Num z) => negb (z =? 0)
  | VNumber Infinity => true
  | VString s => negb (s =? EmptyString)%string
  | VObject => true
  end.

(** [v ?? d] *)
Definition coalesce (v d : value) : value :=
  match v with
  | VUndefined => d
  | _ => v
  end.

(** [c ? a : b] *)
Definition cond (c a b : value) : value :=
  if ToBoolean c then a else b.

(** [a || b] and [a && b] return one of their operands. *)
Definition or (a b : value) : value :=
  if ToBoolean a then a else b.

Definition and (a b : value) : value :=
  if ToBoolean a then b else a.

(** [o?.f]: [undefined] when [o] is [undefined]. *)
Definition optional {A} (o : option A) (f : A -> value) : value :=
  match o with
  | None => VUndefined
  | Some x => f x
  end.

(** [Array.prototype.includes] on an array of strings. *)
Definition Array_includes (l : list string) (x : string) : bool :=
  existsb (String.eqb x) l.

(** [a[i]] on an array whose entries may be [undefined]: reading past the
    end also yields [undefined]. *)
Definition Array_get {A} (l : list (option A)) (i : nat) : option A :=
  mjoin (l !! i).

(** [s.startsWith(t)] at position 0. *)
Fixpoint startsWith (s t : string) : bool :=
  match t, s with
  | EmptyString, _ => true
  | String _ _, EmptyString => false
  | String c t', String d s' => Ascii.eqb c d && startsWith s' t'
  end.

(** [s.includes(t)]: [t] occurs in [s] at some position, code unit by code
    unit. *)
Fixpoint String_includes (s t : string) : bool :=
  startsWith s t ||
  match s with
  | EmptyString => false
  | String _ s' => String_includes s' t
  end.

(** *** String.prototype.toLowerCase

    A string is held as the UTF-8 encoding of its characters.  The
    characters the case conversion looks at are those encoded on one or
    two bytes (up to U+07FF); any other byte is carried through as it is. *)
Inductive char :=
| CodePoint (n : N)
| Unit (b : ascii).

Fixpoint decode (s : string) : list char :=
  match s with
  | EmptyString => []
  | String b s' =>
      let n := N_of_ascii b in
      if (n <? 128)%N then CodePoint n :: decode s'
      else
        match s' with
        | String c s'' =>
            let m := N_of_ascii c in
            if ((194 <=? n) && (n <=? 223) && (128 <=? m) && (m <=? 191))%N
            then CodePoint ((n - 192) * 64 + (m - 128))%N :: decode s''
            else Unit b :: decode s'
        | EmptyString => [Unit b]
        end
  end.

Definition encodeChar (c : char) : string :=
  match c with
  | CodePoint n =>
      if (n <? 128)%N then String (ascii_of_N n) EmptyString
      else String (ascii_of_N (192 + n / 64))
             (String (ascii_of_N (128 + n mod 64)) EmptyString)
  | Unit b => String b EmptyString
  end.

Fixpoint encode (l : list char) : string :=
  match l with
  | [] => EmptyString
  | c :: l' => String.append (encodeChar c) (encode l')
  end.

(** The case data of Unicode for Basic Latin, Latin-1 Supplement and the
    Greek letters U+0391 to U+03C9; every other character is taken as
    uncased and left as it is.  Upper case: A-Z, U+00C0-U+00DE except the
    multiplication sign U+00D7, and the Greek capitals U+0391-U+03A9
    (U+03A2 is unassigned); each has its lower case 32 above it. *)
Definition isUpper (n : N) : bool :=
  ((65 <=? n) && (n <=? 90)
   || (192 <=? n) && (n <=? 222) && negb (n =? 215)
   || (913 <=? n) && (n <=? 937) && negb (n =? 930))%N.

(** Lower case: a-z, the ordinal indicators and the micro sign, U+00DF-U+00FF
    except the division sign U+00F7, and the Greek small letters
    U+03B1-U+03C9, final sigma included. *)
Definition isLower (n : N) : bool :=
  ((97 <=? n) && (n <=? 122)
   || (n =? 170) || (n =? 181) || (n =? 186)
   || (223 <=? n) && (n <=? 255) && negb (n =? 247)
   || (945 <=? n) && (n <=? 969))%N.

Definition isCased (c : char) : bool :=
  match c with
  | CodePoint n => isUpper n || isLower n
  | Unit _ => false
  end.

(** Case-ignorable characters: apostrophe, full stop, colon, circumflex,
    grave, the Latin-1 diaeresis, soft hyphen, macron, acute, middle dot and
    cedilla, and the combining marks U+0300-U+036F. *)
Definition isCaseIgnorable (c : char) : bool :=
  match c with
  | CodePoint n =>
      ((n =? 39) || (n =? 46) || (n =? 58) || (n =? 94) || (n =? 96)
       || (n =? 168) || (n =? 173) || (n =? 175) || (n =? 180) || (n =? 183)
       || (n =? 184) || (768 <=? n) && (n <=? 879))%N
  | Unit _ => false
  end.

(** The simple lower case mapping of a character. *)
Definition lowerChar (c : char) : char :=
  match c with
  | CodePoint n => if isUpper n then CodePoint (n + 32) else c
  | Unit _ => c
  end.

(** Greek capital sigma U+03A3 and the small final sigma U+03C2. *)
Definition capitalSigma : N := 931.
Definition finalSigma : N := 962.

Definition isCapitalSigma (c : char) : bool :=
  match c with
  | CodePoint n => (n =? capitalSigma)%N
  | Unit _ => false
  end.

(** A cased letter follows, possibly after case-ignorable characters. *)
Fixpoint beforeCased (l : list char) : bool :=
  match l with
  | [] => false
  | c :: l' =>
      if isCased c then true
      else if isCaseIgnorable c then beforeCased l'
      else false
  end.

(** The conversion of the characters, left to right.  [afterCased] tells
    that a cased letter precedes, possibly with case-ignorable characters in
    between.  A capital sigma in that position which no cased letter follows
    becomes the final sigma (the Final_Sigma rule, the one context rule of
    the language-independent conversion); every other character takes its
    simple mapping. *)
Fixpoint lowerChars (afterCased : bool) (l : list char) : list char :=
  match l with
  | [] => []
  | c :: l' =>
      (if isCapitalSigma c && afterCased && negb (beforeCased l')
       then CodePoint finalSigma
       else lowerChar c)
      :: lowerChars
           (if isCased c then true
            else if isCaseIgnorable c then afterCased
            else false)
           l'
  end.

Definition toLowerCase (s : string) : string :=
  encode (lowerChars false (decode s)).

(** Thrown values: [new Error(message)]. *)
Record Error := { message : string }.

(** The result of evaluating code that may throw. *)
Inductive completion (A : Type) :=
| Normal (a : A)
| Throw (e : Error).
Arguments Normal {A} a.
Arguments Throw {A} e.

End JS.

Import JS.

(** ** The data model *)

(** [type Repo]: the fields the component reads.  The ten counters are the
    numeric sort keys, the three names the alphabetical ones. *)
Module Repo.
Record t := {
  closedIssuesCount : Z;
  collaboratorsCount : Z;
  discussionsCount : Z;
  forksCount : Z;
  issuesCount : Z;
  mergedPullRequestsCount : Z;
  openIssuesCount : Z;
  openPullRequestsCount : Z;
  projectsCount : Z;
  watchersCount : Z;
  licenseName : string;
  repoName : string;
  repositoryName : string;
}.
End Repo.

(** [type Filter]: every field is optional; the collaborator range is an array
    whose entries may be [undefined]. *)
Module Filter.
Record t := {
  repositoryName : option string;
  licenseName : option (list string);
  collaboratorsCount : option (list (option Z));
}.
End Filter.

(** [SortColumn] of react-data-grid. *)
Inductive SortDirection := ASC | DESC.

Record SortColumn := {
  columnKey : string;
  direction : SortDirection;
}.

(** ** filterRepos: the row predicate *)

Section FilterPredicate.

Variable globalFilters : Filter.t.

(** [globalFilters.repositoryName
      ? repo.repositoryName.includes(globalFilters.repositoryName) : true] *)
Definition nameClause (repo : Repo.t) : value :=
  cond (optional (Filter.repositoryName globalFilters) VString)
       (optional (Filter.repositoryName globalFilters)
          (fun s => VBoolean (String_includes (Repo.repositoryName repo) s)))
       (VBoolean true).

(** [globalFilters.licenseName?.length ?? 0 > 0]: the comparison binds
    tighter than [??], so this is [length ?? (0 > 0)]. *)
Definition licenseGuard : value :=
  coalesce
    (optional (Filter.licenseName globalFilters)
       (fun l => VNumber (Num (Z.of_nat (length l)))))
    (VBoolean (0 >? 0)).

(** [(guard ? globalFilters.licenseName?.includes(repo.licenseName) : true)
      || globalFilters.licenseName?.includes('all')] *)
Definition licenseClause (repo : Repo.t) : value :=
  or (cond licenseGuard
        (optional (Filter.licenseName globalFilters)
           (fun l => VBoolean (Array_includes l (Repo.licenseName repo))))
        (VBoolean true))
     (optional (Filter.licenseName globalFilters)
        (fun l => VBoolean (Array_includes l "all"))).

(** [globalFilters.collaboratorsCount
      ? (globalFilters.collaboratorsCount?.[0] ?? 0) <= repo.collaboratorsCount
        && repo.collaboratorsCount <= (globalFilters.collaboratorsCount[1] ?? Infinity)
      : true] *)
Definition collaboratorsClause (repo : Repo.t) : value :=
  cond (optional (Filter.collaboratorsCount globalFilters) (fun _ => VObject))
       (optional (Filter.collaboratorsCount globalFilters)
          (fun range =>
             VBoolean
               (le (Num (default 0 (Array_get range 0)))
                   (Num (Repo.collaboratorsCount repo))
                && le (Num (Repo.collaboratorsCount repo))
                      (from_option Num Infinity (Array_get range 1)))))
       (VBoolean true).

(** The callback given to [inputRepos.filter]; [filter] keeps the rows on
    which it is truthy. *)
Definition filterCallback (repo : Repo.t) : value :=
  and (and (nameClause repo) (licenseClause repo)) (collaboratorsClause repo).

Definition keeps (repo : Repo.t) : bool := ToBoolean (filterCallback repo).

End FilterPredicate.

(** ** getComparator *)

Definition Comparator := Repo.t -> Repo.t -> Z.

(** [a[sortColumn]] for the keys of the first group of [case] labels. *)
Definition numberColumns : list (string * (Repo.t -> Z)) :=
  [ ("closedIssuesCount", Repo.closedIssuesCount);
    ("collaboratorsCount", Repo.collaboratorsCount);
    ("discussionsCount", Repo.discussionsCount);
    ("forksCount", Repo.forksCount);
    ("issuesCount", Repo.issuesCount);
    ("mergedPullRequestsCount", Repo.mergedPullRequestsCount);
    ("openIssuesCount", Repo.openIssuesCount);
    ("openPullRequestsCount", Repo.openPullRequestsCount);
    ("projectsCount", Repo.projectsCount);
    ("watchersCount", Repo.watchersCount) ].

(** [a[sortColumn]] for the keys of the second group of [case] labels. *)
Definition stringColumns : list (string * (Repo.t -> string)) :=
  [ ("licenseName", Repo.licenseName);
    ("repoName", Repo.repoName);
    ("repositoryName", Repo.repositoryName) ].

(** The first entry of a table of [case] labels that matches the key. *)
Fixpoint property {A} (table : list (string * A)) (key : string) : option A :=
  match table with
  | [] => None
  | (label, field) :: table' =>
      if String.eqb key label then Some field else property table' key
  end.

Definition doubleQuote : string := String "034" EmptyString.

(** [new Error(`unsupported sortColumn: "${sortColumn}"`)] *)
Definition UnsupportedSortColumn (sortColumn : string) : Error :=
  {| message :=
       "unsupported sortColumn: " +:+ doubleQuote +:+ sortColumn +:+ doubleQuote |}.

#[global] Instance completion_ret : MRet completion := @Normal.

#[global] Instance completion_bind : MBind completion :=
  fun A B f m =>
    match m with
    | Normal a => f a
    | Throw e => Throw e
    end.

Section Comparators.

(** [String.prototype.localeCompare]: negative, zero or positive. *)
Variable localeCompare : string -> string -> Z.

Definition numberComparator (field : Repo.t -> Z) : Comparator :=
  fun a b =>
    if field a =? field b then 0
    else if field a >? field b then 1
    else -1.

Definition stringComparator (field : Repo.t -> string) : Comparator :=
  fun a b => localeCompare (toLowerCase (field a)) (toLowerCase (field b)).

Definition getComparator (sortColumn : string) : completion Comparator :=
  match property numberColumns sortColumn with
  | Some field => Normal (numberComparator field)
  | None =>
      match property stringColumns sortColumn with
      | Some field => Normal (stringComparator field)
      | None => Throw (UnsupportedSortColumn sortColumn)
      end
  end.

(** The callback given to [sort] in [sortRepos], for the [sortColumns] that
    remain to be visited by the [for] loop. *)
Fixpoint sortCallback (sortColumns : list SortColumn) (a b : Repo.t)
  : completion Z :=
  match sortColumns with
  | [] => Normal 0
  | sort :: rest =>
      comparator ← getComparator (columnKey sort);
      let compResult := comparator a b in
      if negb (compResult =? 0) then
        Normal (match direction sort with
                | ASC => compResult
                | DESC => - compResult
                end)
      else sortCallback rest a b
  end.

End Comparators.

(** ** Array.prototype.sort

    The sort is stable; for a comparator that never throws and is consistent
    its result is the one sorted arrangement that keeps tied elements in
    their original order.  The model is the stable insertion sort: an element
    goes in front of the first element of the already sorted remainder that
    it does not follow.  The comparator stops the sort when it throws. *)

Section ArraySort.

Context {A : Type}.
Variable comparefn : A -> A -> completion Z.

Fixpoint insertSorted (x : A) (sorted : list A) : completion (list A) :=
  match sorted with
  | [] => Normal [x]
  | y :: sorted' =>
      v ← comparefn x y;
      if v <=? 0 then Normal (x :: y :: sorted')
      else (placed ← insertSorted x sorted'; Normal (y :: placed))
  end.

Fixpoint sortList (l : list A) : completion (list A) :=
  match l with
  | [] => Normal []
  | x :: l' => sorted ← sortList l'; insertSorted x sorted
  end.

End ArraySort.

(** ** The heap of array objects *)

Definition ref := nat.

Abbreviation Heap := (list (list Repo.t)).

(** Code that reads and allocates arrays and may throw.  The heap survives a
    throw. *)
Definition Exec (A : Type) : Type := Heap -> completion A * Heap.

#[global] Instance Exec_ret : MRet Exec := fun A a h => (Normal a, h).

#[global] Instance Exec_bind : MBind Exec :=
  fun A B f m h =>
    match m h with
    | (Normal a, h') => f a h'
    | (Throw e, h') => (Throw e, h')
    end.

(** The elements of the array behind a reference. *)
Definition elements (h : Heap) (r : ref) : list Repo.t := h !!! r.

(** A fresh array object. *)
Definition alloc (l : list Repo.t) : Exec ref :=
  fun h => (Normal (length h), h ++ [l]).

(** [[...r]]: a new array with the elements of [r]. *)
Definition spread (r : ref) : Exec ref :=
  fun h => alloc (elements h r) h.

(** [r.sort(comparefn)]: sorts the array in place and returns it; when the
    comparator throws the array is not written. *)
Definition Array_sort (r : ref) (comparefn : Repo.t -> Repo.t -> completion Z)
  : Exec ref :=
  fun h =>
    match sortList comparefn (elements h r) with
    | Normal sorted => (Normal r, <[r := sorted]> h)
    | Throw e => (Throw e, h)
    end.

(** [r.filter(callback)]: a new array with the elements on which the callback
    is truthy, in order. *)
Definition Array_filter (r : ref) (callback : Repo.t -> value) : Exec ref :=
  fun h => alloc (List.filter (fun x => ToBoolean (callback x)) (elements h r)) h.

(** ** The component *)

Section RepositoriesTable.

Variable localeCompare : string -> string -> Z.

(** [const repos = Object.values(Data['repositories'])] *)
Variable repos : ref.

(** The two pieces of component state. *)
Variable globalFilters : Filter.t.
Variable sortColumns : list SortColumn.

Definition sortRepos (inputRepos : ref) : Exec ref :=
  if (length sortColumns =? 0)%nat then mret repos
  else
    copy ← spread inputRepos;
    sortedRows ← Array_sort copy (sortCallback localeCompare sortColumns);
    mret sortedRows.

Definition filterRepos (inputRepos : ref) : Exec ref :=
  result ← Array_filter inputRepos (filterCallback globalFilters);
  mret result.

(** [rows={filterRepos(sortRepos(repos))}] *)
Definition rows : Exec ref :=
  sorted ← sortRepos repos;
  filterRepos sorted.

End RepositoriesTable.

(** What the grid is given: the elements of the returned array, or the error
    that escaped. *)
Definition rendered (outcome : completion ref * Heap) : completion (list Repo.t) :=
  match outcome with
  | (Normal r, h) => Normal (elements h r)
  | (Throw e, _) => Throw e
  end.

(** ** Reference definitions used by the statements *)

(** The keys listed by the [case] labels of [getComparator]. *)
Definition sortableKeys : list string :=
  [ "closedIssuesCount"; "collaboratorsCount"; "discussionsCount"; "forksCount";
    "issuesCount"; "mergedPullRequestsCount"; "openIssuesCount";
    "openPullRequestsCount"; "projectsCount"; "watchersCount";
    "licenseName"; "repoName"; "repositoryName" ].

(** [t] occurs in [s]. *)
Definition substring (t s : string) : Prop :=
  exists before after, s = before +:+ t +:+ after.

(** The letters whose case the statements change, by alphabet: the capital
    at a position of [upperAlphabet] has its small letter at the same
    position of [lowerAlphabet]. *)
Definition upperAlphabet : string :=
  "ABCDEFGHIJKLMNOPQRSTUVWXYZΑΒΓΔΕΖΗΘΙΚΛΜΝΞΟΠΡΣΤΥΦΧΨΩ".

Definition lowerAlphabet : string :=
  "abcdefghijklmnopqrstuvwxyzαβγδεζηθικλμνξοπρστυφχψω".

Definition letterPairs : list (char * char) :=
  combine (decode upperAlphabet) (decode lowerAlphabet).

(** Two characters that are the same letter, in the same or in different
    case. *)
Definition sameLetter (c d : char) : Prop :=
  c = d \/ In (c, d) letterPairs \/ In (d, c) letterPairs.

(** Two strings that differ at most in the case of their letters. *)
Definition sameUpToCase (s t : string) : Prop :=
  Forall2 sameLetter (decode s) (decode t).

(** A string of ASCII characters. *)
Definition isASCII (s : string) : Prop :=
  Forall (fun b => (N_of_ascii b < 128)%N) (list_ascii_of_string s).

(** The Greek word for street in capitals, U+039F U+0394 U+039F U+03A3, and
    in small letters with the plain sigma, U+03BF U+03B4 U+03BF U+03C3. *)
Definition streetUpper : string := "ΟΔΟΣ".
Definition streetLower : string := "οδοσ".

(** A consistent comparator in the sense of ECMAScript: the two orders of
    the arguments give opposite signs and "not after" is transitive. *)
Record consistent {A} (c : A -> A -> Z) : Prop := {
  consistent_sgn : forall x y, Z.sgn (c y x) = - Z.sgn (c x y);
  consistent_trans : forall x y z, c x y <= 0 -> c y z <= 0 -> c x z <= 0;
}.

(** [x] is not placed after [y] by the comparator. *)
Definition notAfter {A} (c : A -> A -> Z) (x y : A) : Prop := c x y <= 0.

(** A collation to run the development on: code unit order. *)
Definition codeUnitCompare (s t : string) : Z :=
  match String.compare s t with
  | Lt => -1
  | Eq => 0
  | Gt => 1
  end.

(** The license rule as the specification words it: the list is empty and
    contains the sentinel, or the list contains the license of the record. *)
Definition licenseRuleAsWritten (globalFilters : Filter.t) (repo : Repo.t) : Prop :=
  let licenses := default [] (Filter.licenseName globalFilters) in
  (length licenses = 0%nat /\ In "all" licenses)
  \/ In (Repo.licenseName repo) licenses.

(** A column ties on [a] and [b]: its comparator exists and returns 0. *)
Definition ties (localeCompare : string -> string -> Z) (a b : Repo.t)
    (sort : SortColumn) : Prop :=
  exists comparator,
    getComparator localeCompare (columnKey sort) = Normal comparator
    /\ comparator a b = 0.

(** The sort callback when no key is refused, as a function. *)
Section Chain.

Variable localeCompare : string -> string -> Z.

Definition columnComparator (sortColumn : string) : Comparator :=
  match getComparator localeCompare sortColumn with
  | Normal comparator => comparator
  | Throw _ => fun _ _ => 0
  end.

Definition directed (d : SortDirection) (compResult : Z) : Z :=
  match d with
  | ASC => compResult
  | DESC => - compResult
  end.

Fixpoint chain (sortColumns : list SortColumn) (a b : Repo.t) : Z :=
  match sortColumns with
  | [] => 0
  | sort :: rest =>
      let compResult := columnComparator (columnKey sort) a b in
      if negb (compResult =? 0) then directed (direction sort) compResult
      else chain rest a b
  end.

End Chain.

(** Insertion sort with a comparator that does not throw. *)
Section PureSort.

Context {A : Type}.
Variable c : A -> A -> Z.

Fixpoint insertPure (x : A) (sorted : list A) : list A :=
  match sorted with
  | [] => [x]
  | y :: sorted' =>
      if c x y <=? 0 then x :: y :: sorted' else y :: insertPure x sorted'
  end.

Fixpoint sortPure (l : list A) : list A :=
  match l with
  | [] => []
  | x :: l' => insertPure x (sortPure l')
  end.

End PureSort.

(** ** The pipeline as the specification words it *)

(** The comparator of one column: for a numeric key -1, 0 or 1 by direct
    comparison of the two counters, for a name key the collation of the two
    values without regard to case. *)
Definition specColumnCompare (localeCompare : string -> string -> Z)
    (key : string) (a b : Repo.t) : Z :=
  match property numberColumns key with
  | Some field =>
      match field a ?= field b with
      | Lt => -1
      | Eq => 0
      | Gt => 1
      end
  | None =>
      match property stringColumns key with
      | Some field => localeCompare (toLowerCase (field a)) (toLowerCase (field b))
      | None => 0
      end
  end.

(** The comparator chain: the columns in the order of the sort state, the
    first nonzero result wins, [DESC] negates it. *)
Fixpoint specChain (localeCompare : string -> string -> Z)
    (sortColumns : list SortColumn) (a b : Repo.t) : Z :=
  match sortColumns with
  | [] => 0
  | sort :: rest =>
      let result := specColumnCompare localeCompare (columnKey sort) a b in
      if result =? 0 then specChain localeCompare rest a b
      else
        match direction sort with
        | ASC => result
        | DESC => - result
        end
  end.

(** A sort request on a key outside the enumerated set fails. *)
Definition specSortRequest (sortColumns : list SortColumn) : completion unit :=
  match
    find (fun sort => negb (existsb (String.eqb (columnKey sort)) sortableKeys))
      sortColumns
  with
  | Some sort => Throw (UnsupportedSortColumn (columnKey sort))
  | None => Normal tt
  end.

(** Filter the collection, then sort what is left by the comparator chain,
    keeping tied records in their order; sorting by an empty sort state
    changes nothing. *)
Definition specRows (localeCompare : string -> string -> Z)
    (globalFilters : Filter.t) (sortColumns : list SortColumn)
    (collection : list Repo.t) : completion (list Repo.t) :=
  _ ← specSortRequest sortColumns;
  let filtered := List.filter (keeps globalFilters) collection in
  Normal
    match sortColumns with
    | [] => filtered
    | _ => sortPure (specChain localeCompare sortColumns) filtered
    end.

(** Sample records: a name, a license and a collaborator count. *)
Definition sampleRepo (name license : string) (collaborators : Z) : Repo.t :=
  {| Repo.closedIssuesCount := 0;
     Repo.collaboratorsCount := collaborators;
     Repo.discussionsCount := 0;
     Repo.forksCount := 0;
     Repo.issuesCount := 0;
     Repo.mergedPullRequestsCount := 0;
     Repo.openIssuesCount := 0;
     Repo.openPullRequestsCount := 0;
     Repo.projectsCount := 0;
     Repo.watchersCount := 0;
     Repo.licenseName := license;
     Repo.repoName := name;
     Repo.repositoryName := name |}.

Definition coreApi : Repo.t := sampleRepo "core-api" "MIT" 3.
Definition widget : Repo.t := sampleRepo "widget" "Apache-2.0" 5.
Definition corefront : Repo.t := sampleRepo "corefront" "MIT" 7.

(** The filter state at mount: [{ repositoryName: undefined, licenseName: [] }]. *)
Definition initialFilters : Filter.t :=
  {| Filter.repositoryName := None;
     Filter.licenseName := Some [];
     Filter.collaboratorsCount := None |}.

Definition nameFilter (s : string) : Filter.t :=
  {| Filter.repositoryName := Some s;
     Filter.licenseName := Some [];
     Filter.collaboratorsCount := None |}.

Definition licenseFilter (licenses : list string) : Filter.t :=
  {| Filter.repositoryName := None;
     Filter.licenseName := Some licenses;
     Filter.collaboratorsCount := None |}.

Definition collaboratorsFilter (range : list (option Z)) : Filter.t :=
  {| Filter.repositoryName := None;
     Filter.licenseName := Some [];
     Filter.collaboratorsCount := Some range |}.

(** ** The header controls

    The updaters that the [onChange] handlers of the header inputs pass to
    [setGlobalFilters]; [{...otherFilters, k: v}] copies every field and
    replaces [k].  The numeric handlers receive the value of
    [Number(e.target.value)], an integer here; a cleared input gives 0. *)

(** The name input: [repositoryName: e.target.value]. *)
Definition onRepositoryNameChange (value : string) (otherFilters : Filter.t)
  : Filter.t :=
  {| Filter.repositoryName := Some value;
     Filter.licenseName := Filter.licenseName otherFilters;
     Filter.collaboratorsCount := Filter.collaboratorsCount otherFilters |}.

(** The license select: [licenseName: selectedOptions]. *)
Definition onLicenseNameChange (selectedOptions : list string)
    (otherFilters : Filter.t) : Filter.t :=
  {| Filter.repositoryName := Filter.repositoryName otherFilters;
     Filter.licenseName := Some selectedOptions;
     Filter.collaboratorsCount := Filter.collaboratorsCount otherFilters |}.

(** The input [collaboratorsCountMin]:
    [collaboratorsCount: [Number(e.target.value), otherFilters.collaboratorsCount?.[1]]]. *)
Definition onCollaboratorsCountMinChange (n : Z) (otherFilters : Filter.t)
  : Filter.t :=
  {| Filter.repositoryName := Filter.repositoryName otherFilters;
     Filter.licenseName := Filter.licenseName otherFilters;
     Filter.collaboratorsCount :=
       Some [ Some n;
              match Filter.collaboratorsCount otherFilters with
              | Some range => Array_get range 1
              | None => None
              end ] |}.

(** The input [collaboratorsCountMax]:
    [collaboratorsCount: [0, Number(e.target.value)]]. *)
Definition onCollaboratorsCountMaxChange (n : Z) (otherFilters : Filter.t)
  : Filter.t :=
  {| Filter.repositoryName := Filter.repositoryName otherFilters;
     Filter.licenseName := Filter.licenseName otherFilters;
     Filter.collaboratorsCount := Some [Some 0; Some n] |}.

(** ** dropdownOptions *)

(** The objects [{ label: d, value: d }]. *)
Module DropdownOption.
Record t (A : Type) := { label : A; value : A }.
Arguments label {A} _.
Arguments value {A} _.
End DropdownOption.

Section Dropdown.

Context {A : Type} `{EqDecision A}.

(** [Set.prototype.add]: a value that is already in the set is not added;
    a new one goes last in the iteration order. *)
Definition Set_add (s : list A) (x : A) : list A :=
  if decide (x ∈ s) then s else s ++ [x].

(** [new Set(iterable)] adds the values in turn; [Array.from] lists the set
    in its iteration order. *)
Definition Set_from (l : list A) : list A := fold_left Set_add l [].

(** [Array.from(new Set(repos.map((r) => r[field]))).map((d) => ({ label: d, value: d }))] *)
Definition dropdownOptions (repos : ref) (field : Repo.t -> A) (h : Heap)
  : list (DropdownOption.t A) :=
  map (fun d => {| DropdownOption.label := d; DropdownOption.value := d |})
      (Set_from (map field (elements h repos))).

End Dropdown.

(** The values of the [option] elements of the license select: the sentinel
    first, then one per license of the collection. *)
Definition licenseSelectValues (repos : ref) (h : Heap) : list string :=
  "all" :: map DropdownOption.value (dropdownOptions repos Repo.licenseName h).

(** ** The columns of the grid *)

Module Column.
Record t := { key : string; name : string; headerCellClass : string }.
End Column.

(** [labels], without the header renderers. *)
Definition labels : list (string * Column.t) :=
  [ ("Name",
     {| Column.key := "repositoryName"; Column.name := "Name";
        Column.headerCellClass := "h-32" |});
    ("License",
     {| Column.key := "licenseName"; Column.name := "License";
        Column.headerCellClass := "h-32" |});
    ("Collaborators",
     {| Column.key := "collaboratorsCount"; Column.name := "Collaborator Count";
        Column.headerCellClass := "h-32" |}) ].

(** [Object.entries(labels).map(([_, columnProps]) => columnProps)] *)
Definition dataGridColumns : list Column.t := map snd labels.

(** ** Further reference definitions *)

(** The rows of [l] on which the sort callback returns 0 against [x]. *)
Definition tiedWith (localeCompare : string -> string -> Z)
    (sortColumns : list SortColumn) (x : Repo.t) (l : list Repo.t) : list Repo.t :=
  List.filter
    (fun y =>
       match sortCallback localeCompare sortColumns x y with
       | Normal v => v =? 0
       | Throw _ => false
       end) l.

(** A filter state restricted to one of its dimensions. *)
Definition nameOnly (f : Filter.t) : Filter.t :=
  {| Filter.repositoryName := Filter.repositoryName f;
     Filter.licenseName := None;
     Filter.collaboratorsCount := None |}.

Definition licenseOnly (f : Filter.t) : Filter.t :=
  {| Filter.repositoryName := None;
     Filter.licenseName := Filter.licenseName f;
     Filter.collaboratorsCount := None |}.

Definition collaboratorsOnly (f : Filter.t) : Filter.t :=
  {| Filter.repositoryName := None;
     Filter.licenseName := None;
     Filter.collaboratorsCount := Filter.collaboratorsCount f |}.

(** The order a single numeric column asks for. *)
Definition inDirection (d : SortDirection) (field : Repo.t -> Z) (a b : Repo.t)
  : Prop :=
  match d with
  | ASC => field a <= field b
  | DESC => field b <= field a
  end.

(** * Properties *)

(** ** The filter predicate *)

Lemma Array_includes_In l x : Array_includes l x = true <-> In x l.
Proof.
  unfold Array_includes. rewrite existsb_exists. split.
  - intros (y & Hy & E). apply String.eqb_eq in E. now subst.
  - intros H. exists x. split; [assumption | apply String.eqb_refl].
Qed.

Lemma startsWith_spec t : forall s,
  startsWith s t = true <-> exists after, s = t +:+ after.
Proof.
  induction t as [| c t IH]; intros s; simpl.
  - split; [intros _; now exists s | intros _; now destruct s].
  - destruct s as [| d s]; simpl.
    + split; [discriminate | intros (after & E); discriminate].
    + rewrite andb_true_iff, IH, Ascii.eqb_eq. split.
      * intros (-> & after & ->). now exists after.
      * intros (after & E). injection E as -> ->. split; [reflexivity | now exists after].
Qed.

Lemma String_includes_spec t : forall s,
  String_includes s t = true <-> substring t s.
Proof.
  intros s. unfold substring. induction s as [| d s IH].
  - cbn [String_includes]. rewrite orb_false_r, startsWith_spec. split.
    + intros (after & E). now exists EmptyString, after.
    + intros ([| c before] & after & E); [now exists after | discriminate].
  - cbn [String_includes]. rewrite orb_true_iff, IH, startsWith_spec. split.
    + intros [(after & E) | (before & after & E)].
      * now exists EmptyString, after.
      * exists (String d before), after. simpl. now rewrite E.
    + intros ([| c before] & after & E).
      * left. now exists after.
      * right. simpl in E. injection E as _ E. now exists before, after.
Qed.

Lemma ToBoolean_and a b : ToBoolean (and a b) = ToBoolean a && ToBoolean b.
Proof. unfold and. destruct (ToBoolean a) eqn:E; [reflexivity | exact E]. Qed.

Lemma ToBoolean_or a b : ToBoolean (or a b) = ToBoolean a || ToBoolean b.
Proof. unfold or. destruct (ToBoolean a) eqn:E; [exact E | reflexivity]. Qed.

Lemma keeps_clauses globalFilters repo :
  keeps globalFilters repo = true <->
  ToBoolean (nameClause globalFilters repo) = true
  /\ ToBoolean (licenseClause globalFilters repo) = true
  /\ ToBoolean (collaboratorsClause globalFilters repo) = true.
Proof.
  unfold keeps, filterCallback.
  rewrite !ToBoolean_and, !andb_true_iff. tauto.
Qed.

Lemma nameClause_true globalFilters repo :
  ToBoolean (nameClause globalFilters repo) = true <->
  match Filter.repositoryName globalFilters with
  | None => True
  | Some s => s = EmptyString \/ substring s (Repo.repositoryName repo)
  end.
Proof.
  unfold nameClause, cond.
  destruct (Filter.repositoryName globalFilters) as [s |]; simpl; [| tauto].
  destruct (String.eqb_spec s EmptyString) as [-> | Hs]; simpl.
  - tauto.
  - rewrite String_includes_spec. tauto.
Qed.

Lemma licenseGuard_true globalFilters :
  ToBoolean (licenseGuard globalFilters) = true <->
  exists licenses, Filter.licenseName globalFilters = Some licenses /\ licenses <> [].
Proof.
  unfold licenseGuard.
  destruct (Filter.licenseName globalFilters) as [[| x l] |]; simpl.
  - split; [discriminate | intros (l & [= <-] & H); now destruct H].
  - split; [intros _; now exists (x :: l) | reflexivity].
  - split; [discriminate | intros (l & [=] & _)].
Qed.

Lemma licenseClause_true globalFilters repo :
  ToBoolean (licenseClause globalFilters repo) = true <->
  match Filter.licenseName globalFilters with
  | None => True
  | Some licenses =>
      licenses = [] \/ In (Repo.licenseName repo) licenses \/ In "all" licenses
  end.
Proof.
  unfold licenseClause, licenseGuard, cond. rewrite ToBoolean_or, orb_true_iff.
  destruct (Filter.licenseName globalFilters) as [[| x l] |];
    cbn [optional coalesce].
  - split; intros _; left; reflexivity.
  - replace (ToBoolean (VNumber (Num (Z.of_nat (length (x :: l)))))) with true.
    2:{ symmetry. apply negb_true_iff, Z.eqb_neq. cbn [length]. lia. }
    cbn [ToBoolean]. rewrite !Array_includes_In.
    split; [tauto | intros [[=] | H]; exact H].
  - split; [tauto | intros _; left; reflexivity].
Qed.

Lemma collaboratorsClause_true globalFilters repo :
  ToBoolean (collaboratorsClause globalFilters repo) = true <->
  match Filter.collaboratorsCount globalFilters with
  | None => True
  | Some range =>
      default 0 (Array_get range 0) <= Repo.collaboratorsCount repo
      /\ forall m, Array_get range 1 = Some m -> Repo.collaboratorsCount repo <= m
  end.
Proof.
  unfold collaboratorsClause, cond.
  destruct (Filter.collaboratorsCount globalFilters) as [range |]; simpl; [| tauto].
  rewrite andb_true_iff, Z.leb_le.
  destruct (Array_get range 1) as [m |]; simpl.
  - rewrite Z.leb_le. split.
    + intros [H1 H2]. split; [exact H1 | now intros ? [= <-]].
    + intros [H1 H2]. split; [exact H1 | now apply H2].
  - split; [intros [H1 _]; split; [exact H1 | discriminate] | intros [H1 _]; now split].
Qed.

Lemma elements_alloc (h : Heap) l : elements (h ++ [l]) (length h) = l.
Proof.
  unfold elements. apply list_lookup_total_correct.
  rewrite lookup_app_r by lia. now rewrite Nat.sub_diag.
Qed.

Lemma elements_alloc_old (h : Heap) l r :
  (r < length h)%nat -> elements (h ++ [l]) r = elements h r.
Proof.
  intros H. unfold elements.
  destruct (lookup_lt_is_Some_2 h r H) as [x Hx].
  rewrite (list_lookup_total_correct _ _ _ Hx).
  apply list_lookup_total_correct. now rewrite lookup_app_l.
Qed.

Lemma elements_lookup (h : Heap) r l : h !! r = Some l -> elements h r = l.
Proof. apply list_lookup_total_correct. Qed.

Lemma filterRepos_run globalFilters inputRepos h :
  filterRepos globalFilters inputRepos h =
  (Normal (length h), h ++ [List.filter (keeps globalFilters) (elements h inputRepos)]).
Proof. reflexivity. Qed.

(** C1 (as amended).  The license dimension keeps a record exactly when the
    license list is absent, or is empty, or contains the license of the
    record, or contains the sentinel [all].  The guard
    [licenseName?.length ?? 0 > 0] is [length ?? (0 > 0)]: it is truthy exactly
    when the list is present and not empty, so the membership test is only
    reached for a non-empty list and an empty list accepts every record. *)
Theorem licenseClause_keeps globalFilters repo :
  (ToBoolean (licenseClause globalFilters repo) = true <->
   match Filter.licenseName globalFilters with
   | None => True
   | Some licenses =>
       licenses = [] \/ In (Repo.licenseName repo) licenses \/ In "all" licenses
   end)
  /\ (ToBoolean (licenseGuard globalFilters) = true <->
      exists licenses,
        Filter.licenseName globalFilters = Some licenses /\ licenses <> []).
Proof. split; [apply licenseClause_true | apply licenseGuard_true]. Qed.

(** C1 as stated fails on the filter state at mount: the license list is
    empty, a record licensed [MIT] is kept, and neither branch of the rule as
    written holds. *)
Lemma licenseClause_empty_list_counterexample :
  ~ (ToBoolean (licenseClause initialFilters coreApi) = true
     <-> licenseRuleAsWritten initialFilters coreApi).
Proof.
  intros [H _]. specialize (H eq_refl).
  destruct H as [[_ []] | []].
Qed.

(** C4.  When the license list contains the sentinel [all] and the name and
    collaborator dimensions are unset, every record is kept, whatever else
    the list contains: [filterRepos] returns a new array with all the
    elements of its input, in order. *)
Theorem all_sentinel_keeps_everything globalFilters licenses inputRepos h :
  Filter.licenseName globalFilters = Some licenses ->
  In "all" licenses ->
  Filter.repositoryName globalFilters = None ->
  Filter.collaboratorsCount globalFilters = None ->
  (forall repo, keeps globalFilters repo = true)
  /\ rendered (filterRepos globalFilters inputRepos h) = Normal (elements h inputRepos).
Proof.
  intros Hl Hall Hn Hc.
  assert (K : forall repo, keeps globalFilters repo = true).
  { intros repo. apply keeps_clauses.
    rewrite nameClause_true, licenseClause_true, collaboratorsClause_true.
    rewrite Hl, Hn, Hc. tauto. }
  split; [exact K |].
  rewrite filterRepos_run. cbn [rendered]. rewrite elements_alloc.
  f_equal. apply forallb_filter_id, forallb_forall. intros repo _. apply K.
Qed.

Lemma all_sentinel_keeps_everything_witness :
  rendered (filterRepos (licenseFilter ["MIT"; "all"]) 0%nat [[coreApi; widget]])
  = Normal [coreApi; widget].
Proof.
  apply (all_sentinel_keeps_everything (licenseFilter ["MIT"; "all"]) ["MIT"; "all"]).
  - reflexivity.
  - simpl. tauto.
  - reflexivity.
  - reflexivity.
Defined.

(** C8.  With a non-empty name filter [s] a record passes the name dimension
    exactly when [s] occurs in its [repositoryName], code unit for code unit;
    no case folding is applied.  Filtering core-api, widget, corefront by
    [core] leaves core-api and corefront, and [Core] does not match
    core-api. *)
Theorem name_filter_literal_substring :
  (forall globalFilters s repo,
      Filter.repositoryName globalFilters = Some s -> s <> EmptyString ->
      (ToBoolean (nameClause globalFilters repo) = true
       <-> substring s (Repo.repositoryName repo)))
  /\ (forall s repo, s <> EmptyString ->
        (keeps (nameFilter s) repo = true <-> substring s (Repo.repositoryName repo)))
  /\ map Repo.repositoryName
       (List.filter (keeps (nameFilter "core"))
          [coreApi; widget; corefront])
     = ["core-api"; "corefront"]
  /\ keeps (nameFilter "Core") coreApi = false.
Proof.
  assert (N : forall globalFilters s repo,
             Filter.repositoryName globalFilters = Some s -> s <> EmptyString ->
             (ToBoolean (nameClause globalFilters repo) = true
              <-> substring s (Repo.repositoryName repo))).
  { intros f s repo Hs Hne. rewrite nameClause_true, Hs. tauto. }
  split; [exact N |]. split; [| split; reflexivity].
  intros s repo Hne. rewrite keeps_clauses, (N (nameFilter s) s repo eq_refl Hne).
  rewrite licenseClause_true, collaboratorsClause_true. simpl. tauto.
Qed.

Lemma name_filter_literal_substring_witness :
  ToBoolean (nameClause (nameFilter "core") corefront) = true
  <-> substring "core" "corefront".
Proof.
  apply (proj1 name_filter_literal_substring (nameFilter "core") "core" corefront).
  - reflexivity.
  - discriminate.
Defined.

(** C9.  With a collaborator range [[min, max]] a record passes the
    collaborator dimension exactly when [min <= collaboratorsCount <= max],
    both bounds included, an absent [min] being 0 and an absent [max] no
    bound; without a range the dimension does not constrain.  The range
    [[5, 10]] over the counts 3, 5, 7, 10, 12 keeps 5, 7, 10. *)
Theorem collaborators_filter_inclusive_range :
  (forall globalFilters min max repo,
      Filter.collaboratorsCount globalFilters = Some [min; max] ->
      (ToBoolean (collaboratorsClause globalFilters repo) = true
       <-> default 0 min <= Repo.collaboratorsCount repo
           /\ forall m, max = Some m -> Repo.collaboratorsCount repo <= m))
  /\ (forall globalFilters repo,
        Filter.collaboratorsCount globalFilters = None ->
        ToBoolean (collaboratorsClause globalFilters repo) = true)
  /\ map Repo.collaboratorsCount
       (List.filter (keeps (collaboratorsFilter [Some 5; Some 10]))
          [sampleRepo "a" "MIT" 3; sampleRepo "b" "MIT" 5; sampleRepo "c" "MIT" 7;
           sampleRepo "d" "MIT" 10; sampleRepo "e" "MIT" 12])
     = [5; 7; 10].
Proof.
  split; [| split; [| reflexivity]].
  - intros f min max repo H. rewrite collaboratorsClause_true, H. reflexivity.
  - intros f repo H. rewrite collaboratorsClause_true, H. exact I.
Qed.

Lemma collaborators_filter_inclusive_range_witness :
  ToBoolean (collaboratorsClause (collaboratorsFilter [None; Some 10])
               (sampleRepo "d" "MIT" 10)) = true
  <-> 0 <= 10 /\ forall m, Some 10 = Some m -> 10 <= m.
Proof.
  apply (proj1 collaborators_filter_inclusive_range
           (collaboratorsFilter [None; Some 10]) None (Some 10)
           (sampleRepo "d" "MIT" 10)).
  reflexivity.
Defined.

(** ** getComparator *)

Lemma property_Some {A} (table : list (string * A)) key :
  In key (map fst table) -> exists field, property table key = Some field.
Proof.
  induction table as [| [label field] table IH]; simpl; [tauto |].
  intros H. destruct (String.eqb_spec key label) as [-> | Hne].
  - now exists field.
  - destruct H as [-> | H]; [congruence | now apply IH].
Qed.

Lemma property_In {A} (table : list (string * A)) key field :
  property table key = Some field -> In key (map fst table).
Proof.
  induction table as [| [label f] table IH]; simpl; [discriminate |].
  destruct (String.eqb_spec key label) as [-> | Hne]; [now left | right; now apply IH].
Qed.

Lemma sortableKeys_tables :
  sortableKeys = map fst numberColumns ++ map fst stringColumns.
Proof. reflexivity. Qed.

Section ComparatorFacts.

Variable localeCompare : string -> string -> Z.

Lemma getComparator_cases key :
  (exists field,
      property numberColumns key = Some field
      /\ getComparator localeCompare key = Normal (numberComparator field))
  \/ (exists field,
        property stringColumns key = Some field
        /\ getComparator localeCompare key = Normal (stringComparator localeCompare field))
  \/ (~ In key sortableKeys
      /\ getComparator localeCompare key = Throw (UnsupportedSortColumn key)).
Proof.
  unfold getComparator.
  destruct (property numberColumns key) as [field |] eqn:En.
  - left. now exists field.
  - destruct (property stringColumns key) as [field |] eqn:Es.
    + right; left. now exists field.
    + right; right. split; [| reflexivity].
      rewrite sortableKeys_tables, in_app_iff. intros [H | H].
      * destruct (property_Some _ _ H) as [f Hf]. congruence.
      * destruct (property_Some _ _ H) as [f Hf]. congruence.
Qed.

Lemma getComparator_sortable key :
  In key sortableKeys <-> exists comparator, getComparator localeCompare key = Normal comparator.
Proof.
  split.
  - intros H.
    destruct (getComparator_cases key) as [(f & _ & E) | [(f & _ & E) | (N & _)]];
      [eauto | eauto | tauto].
  - intros (c & E).
    destruct (getComparator_cases key) as [(f & P & _) | [(f & P & _) | (_ & T)]].
    + rewrite sortableKeys_tables, in_app_iff. left. eapply property_In, P.
    + rewrite sortableKeys_tables, in_app_iff. right. eapply property_In, P.
    + congruence.
Qed.

Lemma getComparator_unsupported key :
  ~ In key sortableKeys ->
  getComparator localeCompare key = Throw (UnsupportedSortColumn key).
Proof.
  intros H.
  destruct (getComparator_cases key) as [(f & P & _) | [(f & P & _) | (_ & T)]].
  - exfalso. apply H. rewrite sortableKeys_tables, in_app_iff. left. eapply property_In, P.
  - exfalso. apply H. rewrite sortableKeys_tables, in_app_iff. right. eapply property_In, P.
  - exact T.
Qed.

(** The sort callback stops at the first column whose key is refused. *)
Lemma sortCallback_unsupported_first key d rest a b :
  ~ In key sortableKeys ->
  sortCallback localeCompare ({| columnKey := key; direction := d |} :: rest) a b
  = Throw (UnsupportedSortColumn key).
Proof.
  intros H. cbn [sortCallback columnKey].
  now rewrite (getComparator_unsupported key H).
Qed.

End ComparatorFacts.

(** ** Array.prototype.sort when the comparator throws *)

Section SortThrows.

Context {A : Type}.
Variable comparefn : A -> A -> completion Z.

Lemma insertSorted_length x : forall sorted placed,
  insertSorted comparefn x sorted = Normal placed ->
  length placed = S (length sorted).
Proof.
  induction sorted as [| y sorted IH]; intros placed; cbn [insertSorted].
  - now intros [= <-].
  - destruct (comparefn x y) as [v |]; cbn; [| discriminate].
    destruct (v <=? 0); [now intros [= <-] |].
    destruct (insertSorted comparefn x sorted) as [p |]; cbn; [| discriminate].
    intros [= <-]. cbn [length]. now rewrite (IH p eq_refl).
Qed.

Lemma sortList_length : forall l sorted,
  sortList comparefn l = Normal sorted -> length sorted = length l.
Proof.
  induction l as [| x l IH]; intros sorted; cbn [sortList].
  - now intros [= <-].
  - destruct (sortList comparefn l) as [s |]; cbn; [| discriminate].
    intros H. apply insertSorted_length in H. cbn [length]. now rewrite H, (IH s eq_refl).
Qed.

(** A comparator that throws [e] on every call lets arrays of at most one
    element through, since it is never called on them, and makes the sort
    of any longer array throw [e]. *)
Lemma sortList_always_throws e :
  (forall x y, comparefn x y = Throw e) ->
  forall l,
    ((length l <= 1)%nat /\ sortList comparefn l = Normal l)
    \/ ((2 <= length l)%nat /\ sortList comparefn l = Throw e).
Proof.
  intros T. induction l as [| x l IH].
  - left. split; [cbn; lia | reflexivity].
  - cbn [sortList length]. destruct IH as [[Hl E] | [Hl E]]; rewrite E; cbn.
    + destruct l as [| y l]; cbn [length insertSorted] in *.
      * left. split; [lia | reflexivity].
      * right. split; [lia |]. now rewrite T.
    + right. split; [lia | reflexivity].
Qed.

End SortThrows.

(** ** sortRepos on the heap *)


(** ** The sort callback over several columns *)

Section CallbackFacts.

Variable localeCompare : string -> string -> Z.

Lemma sortCallback_tie sort rest a b :
  ties localeCompare a b sort ->
  sortCallback localeCompare (sort :: rest) a b = sortCallback localeCompare rest a b.
Proof.
  intros (c & E & Z0). cbn [sortCallback]. rewrite E. cbn. now rewrite Z0.
Qed.

Lemma sortCallback_decides sort rest a b comparator :
  getComparator localeCompare (columnKey sort) = Normal comparator ->
  comparator a b <> 0 ->
  sortCallback localeCompare (sort :: rest) a b
  = Normal (directed (direction sort) (comparator a b)).
Proof.
  intros E N. cbn [sortCallback]. rewrite E. cbn.
  now destruct (Z.eqb_spec (comparator a b) 0).
Qed.

Lemma sortCallback_first_nonzero before sort after a b comparator :
  Forall (ties localeCompare a b) before ->
  getComparator localeCompare (columnKey sort) = Normal comparator ->
  comparator a b <> 0 ->
  sortCallback localeCompare (before ++ sort :: after) a b
  = Normal (directed (direction sort) (comparator a b)).
Proof.
  intros Hb E N. induction Hb as [| s before Hs Hb IH]; cbn [app].
  - now apply sortCallback_decides.
  - now rewrite sortCallback_tie.
Qed.

Lemma directed_zero d v : directed d v = 0 <-> v = 0.
Proof. destruct d; cbn; lia. Qed.

Lemma sortCallback_zero sortColumns a b :
  sortCallback localeCompare sortColumns a b = Normal 0
  <-> Forall (ties localeCompare a b) sortColumns.
Proof.
  induction sortColumns as [| sort rest IH].
  - split; [constructor | reflexivity].
  - split.
    + cbn [sortCallback]. intros H.
      destruct (getComparator localeCompare (columnKey sort)) as [c |] eqn:E;
        cbn in H; [| discriminate].
      destruct (Z.eqb_spec (c a b) 0) as [Z0 | N]; cbn in H.
      * constructor; [now exists c | now apply IH].
      * injection H as H. apply directed_zero in H. contradiction.
    + intros H. inversion H as [| s l Hs Hl]; subst.
      rewrite sortCallback_tie by assumption. now apply IH.
Qed.

End CallbackFacts.

(** ** sortRepos and the pipeline on the heap *)

Lemma sortRepos_empty localeCompare repos inputRepos h :
  sortRepos localeCompare repos [] inputRepos h = (Normal repos, h).
Proof. reflexivity. Qed.

(** With a sort state that is not empty, [sortRepos] allocates the copy at
    the first free reference and sorts it there; the copy is left as it was
    allocated when the callback throws. *)
Lemma sortRepos_nonempty localeCompare repos sort rest inputRepos h :
  sortRepos localeCompare repos (sort :: rest) inputRepos h =
  match sortList (sortCallback localeCompare (sort :: rest)) (elements h inputRepos) with
  | Normal sorted => (Normal (length h), h ++ [sorted])
  | Throw e => (Throw e, h ++ [elements h inputRepos])
  end.
Proof.
  unfold sortRepos. cbn [length Nat.eqb].
  unfold mbind, Exec_bind, spread, alloc, Array_sort.
  rewrite elements_alloc.
  destruct (sortList _ (elements h inputRepos)) as [sorted | e]; [| reflexivity].
  unfold mret, Exec_ret. f_equal.
  rewrite insert_app_r_alt by lia. now rewrite Nat.sub_diag.
Qed.

(** No call of [sortRepos] writes to an array that existed before the call. *)
Lemma sortRepos_preserves localeCompare repos sortColumns inputRepos h r :
  (r < length h)%nat ->
  elements (sortRepos localeCompare repos sortColumns inputRepos h).2 r = elements h r.
Proof.
  intros Hr. destruct sortColumns as [| sort rest].
  - reflexivity.
  - rewrite sortRepos_nonempty.
    destruct (sortList _ _); cbn [snd]; now apply elements_alloc_old.
Qed.

Lemma rendered_rows_empty localeCompare repos globalFilters h :
  rendered (rows localeCompare repos globalFilters [] h)
  = Normal (List.filter (keeps globalFilters) (elements h repos)).
Proof.
  unfold rows, mbind, Exec_bind. rewrite sortRepos_empty, filterRepos_run.
  cbn [rendered]. now rewrite elements_alloc.
Qed.

Lemma rendered_rows_nonempty localeCompare repos globalFilters sort rest h :
  rendered (rows localeCompare repos globalFilters (sort :: rest) h)
  = (sorted ← sortList (sortCallback localeCompare (sort :: rest)) (elements h repos);
     Normal (List.filter (keeps globalFilters) sorted)).
Proof.
  unfold rows. unfold mbind at 1. unfold Exec_bind. rewrite sortRepos_nonempty.
  destruct (sortList _ _) as [sorted | e]; [| reflexivity].
  rewrite filterRepos_run. cbn [rendered mbind completion_bind].
  now rewrite !elements_alloc.
Qed.

(** C2.  [getComparator] returns a comparator exactly for the thirteen keys
    of its [case] labels and throws the unsupported-column error for every
    other key.  The error leaves the sort callback as it was thrown, once
    the columns before the refused one tie, and whatever the sort throws is
    what [sortRepos] and the pipeline throw; so when the first sort column
    has such a key and the input has at least two rows, [sortRepos] and the
    pipeline end with that error and return no rows.  The sort works on a
    copy, so every array that
    existed before the call, the input included, keeps its elements in their
    order, whatever the outcome. *)
Theorem unsupported_sort_column localeCompare :
  (forall key,
      In key sortableKeys
      <-> exists comparator, getComparator localeCompare key = Normal comparator)
  /\ (forall key,
        ~ In key sortableKeys ->
        getComparator localeCompare key = Throw (UnsupportedSortColumn key))
  /\ (forall before key d after a b,
        Forall (ties localeCompare a b) before ->
        ~ In key sortableKeys ->
        sortCallback localeCompare
          (before ++ {| columnKey := key; direction := d |} :: after) a b
        = Throw (UnsupportedSortColumn key))
  /\ (forall repos sort rest inputRepos h e,
        sortList (sortCallback localeCompare (sort :: rest)) (elements h inputRepos)
        = Throw e ->
        sortRepos localeCompare repos (sort :: rest) inputRepos h
        = (Throw e, h ++ [elements h inputRepos])
        /\ (inputRepos = repos ->
            forall globalFilters,
              rendered (rows localeCompare repos globalFilters (sort :: rest) h)
              = Throw e))
  /\ (forall repos key d rest inputRepos h,
        ~ In key sortableKeys ->
        (2 <= length (elements h inputRepos))%nat ->
        sortRepos localeCompare repos
          ({| columnKey := key; direction := d |} :: rest) inputRepos h
        = (Throw (UnsupportedSortColumn key), h ++ [elements h inputRepos]))
  /\ (forall repos globalFilters key d rest h,
        ~ In key sortableKeys ->
        (2 <= length (elements h repos))%nat ->
        rendered (rows localeCompare repos globalFilters
                    ({| columnKey := key; direction := d |} :: rest) h)
        = Throw (UnsupportedSortColumn key))
  /\ (forall repos sortColumns inputRepos h r,
        (r < length h)%nat ->
        elements (sortRepos localeCompare repos sortColumns inputRepos h).2 r
        = elements h r).
Proof.
  assert (T : forall key d rest l,
             ~ In key sortableKeys -> (2 <= length l)%nat ->
             sortList (sortCallback localeCompare
                         ({| columnKey := key; direction := d |} :: rest)) l
             = Throw (UnsupportedSortColumn key)).
  { intros key d rest l Hk Hl.
    destruct (sortList_always_throws
                (sortCallback localeCompare
                   ({| columnKey := key; direction := d |} :: rest))
                (UnsupportedSortColumn key)
                (fun a b => sortCallback_unsupported_first localeCompare key d rest a b Hk) l)
      as [[H _] | [_ H]]; [lia | exact H]. }
  repeat split.
  - apply getComparator_sortable.
  - apply getComparator_sortable.
  - apply getComparator_unsupported.
  - intros before key d after a b Hb Hk.
    induction Hb as [| s before Hs Hb IH]; cbn [app].
    + now apply sortCallback_unsupported_first.
    + now rewrite sortCallback_tie.
  - now rewrite sortRepos_nonempty, H.
  - intros -> f. now rewrite rendered_rows_nonempty, H.
  - intros repos key d rest inputRepos h Hk Hl.
    now rewrite sortRepos_nonempty, T.
  - intros repos f key d rest h Hk Hl.
    now rewrite rendered_rows_nonempty, T.
  - intros. now apply sortRepos_preserves.
Qed.

Lemma unsupported_sort_column_witness :
  sortRepos codeUnitCompare 0%nat [{| columnKey := "stargazersCount"; direction := ASC |}]
    0%nat [[coreApi; widget]]
  = (Throw (UnsupportedSortColumn "stargazersCount"),
     [[coreApi; widget];
      [coreApi; widget]]).
Proof.
  apply (proj1 (proj2 (proj2 (proj2 (proj2 (unsupported_sort_column codeUnitCompare)))))
           0%nat "stargazersCount" ASC []
           0%nat [[coreApi; widget]]).
  - unfold sortableKeys, In. intros H.
    repeat (destruct H as [H | H]; [discriminate H |]). exact H.
  - cbn. lia.
Defined.

(** C10.  With an empty sort state [sortRepos] returns the reference of the
    module-level [repos] array, whatever array it is given, and touches no
    array; so applied to the output of [filterRepos] it yields the whole
    collection again. *)
Theorem sortRepos_empty_returns_global localeCompare repos :
  (forall inputRepos h,
      sortRepos localeCompare repos [] inputRepos h = (Normal repos, h))
  /\ (forall globalFilters h collection,
        h !! repos = Some collection ->
        rendered ((filtered ← filterRepos globalFilters repos;
                   sortRepos localeCompare repos [] filtered) h)
        = Normal collection).
Proof.
  split; [reflexivity |].
  intros f h collection H.
  unfold mbind, Exec_bind. rewrite filterRepos_run, sortRepos_empty.
  cbn [rendered]. f_equal.
  rewrite elements_alloc_old by (eapply lookup_lt_Some, H).
  now apply elements_lookup.
Qed.

Lemma sortRepos_empty_returns_global_witness :
  rendered ((filtered ← filterRepos (nameFilter "core") 0%nat;
             sortRepos codeUnitCompare 0%nat [] filtered)
              [[coreApi; widget]])
  = Normal [coreApi; widget].
Proof.
  apply (proj2 (sortRepos_empty_returns_global codeUnitCompare 0%nat)
           (nameFilter "core")
           [[coreApi; widget]]).
  reflexivity.
Defined.

(** C3.  With an empty sort state, sorting the collection of the table
    returns it as it is, in its insertion order, and the pipeline renders
    the records of the collection that pass the filter, in that order. *)
Theorem empty_sort_state_keeps_order localeCompare repos globalFilters h collection :
  h !! repos = Some collection ->
  rendered (sortRepos localeCompare repos [] repos h) = Normal collection
  /\ rendered (rows localeCompare repos globalFilters [] h)
     = Normal (List.filter (keeps globalFilters) collection).
Proof.
  intros H. rewrite rendered_rows_empty, sortRepos_empty. cbn [rendered].
  now rewrite (elements_lookup _ _ _ H).
Qed.

Lemma empty_sort_state_keeps_order_witness :
  rendered (sortRepos codeUnitCompare 0%nat [] 0%nat
              [[widget; coreApi]])
  = Normal [widget; coreApi]
  /\ rendered (rows codeUnitCompare 0%nat (nameFilter "core") []
                 [[widget; coreApi]])
     = Normal (List.filter (keeps (nameFilter "core"))
                 [widget; coreApi]).
Proof.
  apply (empty_sort_state_keeps_order codeUnitCompare 0%nat (nameFilter "core")
           [[widget; coreApi]]).
  reflexivity.
Defined.

(** C6.  The sort callback visits the columns in the order of the sort
    state.  If every column before some column ties and that column's
    comparator gives a nonzero result, the callback returns that result,
    unchanged for [ASC] and negated for [DESC]; later columns are not
    consulted.  It returns 0 exactly when every column ties.  In particular
    a tie on the primary column hands the decision to the secondary one. *)
Theorem sortCallback_lexicographic localeCompare a b :
  (forall before sort after comparator,
      Forall (ties localeCompare a b) before ->
      getComparator localeCompare (columnKey sort) = Normal comparator ->
      comparator a b <> 0 ->
      sortCallback localeCompare (before ++ sort :: after) a b
      = Normal (match direction sort with
                | ASC => comparator a b
                | DESC => - comparator a b
                end))
  /\ (forall sortColumns,
        sortCallback localeCompare sortColumns a b = Normal 0
        <-> Forall (ties localeCompare a b) sortColumns)
  /\ (forall primary secondary,
        ties localeCompare a b primary ->
        sortCallback localeCompare [primary; secondary] a b
        = sortCallback localeCompare [secondary] a b).
Proof.
  split; [| split].
  - intros. now apply sortCallback_first_nonzero.
  - intros. apply sortCallback_zero.
  - intros. now apply sortCallback_tie.
Qed.

Lemma sortCallback_lexicographic_witness :
  sortCallback codeUnitCompare
    ([{| columnKey := "licenseName"; direction := ASC |}]
       ++ {| columnKey := "collaboratorsCount"; direction := DESC |}
       :: [{| columnKey := "repositoryName"; direction := ASC |}])
    coreApi (sampleRepo "widget" "mit" 5)
  = Normal 1.
Proof.
  apply (proj1 (sortCallback_lexicographic codeUnitCompare
                  coreApi (sampleRepo "widget" "mit" 5))
           [{| columnKey := "licenseName"; direction := ASC |}]
           {| columnKey := "collaboratorsCount"; direction := DESC |}
           [{| columnKey := "repositoryName"; direction := ASC |}]
           (numberComparator Repo.collaboratorsCount)).
  - constructor; [| constructor].
    exists (stringComparator codeUnitCompare Repo.licenseName). split; reflexivity.
  - reflexivity.
  - discriminate.
Defined.

(** ** Case folding *)

Lemma decode_ASCII s :
  isASCII s ->
  decode s = map (fun b => CodePoint (N_of_ascii b)) (list_ascii_of_string s).
Proof.
  unfold isASCII. induction s as [| b s IH]; cbn [list_ascii_of_string decode map].
  - reflexivity.
  - intros H. inversion H as [| ? ? Hb Hs]; subst.
    cbv zeta. apply N.ltb_lt in Hb. rewrite Hb. now rewrite IH.
Qed.

Lemma lowerChars_ASCII (l : list ascii) :
  Forall (fun b => (N_of_ascii b < 128)%N) l ->
  forall afterCased,
    lowerChars afterCased (map (fun b => CodePoint (N_of_ascii b)) l)
    = map lowerChar (map (fun b => CodePoint (N_of_ascii b)) l).
Proof.
  induction 1 as [| b l Hb _ IH]; intros afterCased; cbn [map lowerChars].
  - reflexivity.
  - rewrite IH. f_equal.
    replace (isCapitalSigma (CodePoint (N_of_ascii b))) with false; [reflexivity |].
    symmetry. apply N.eqb_neq. unfold capitalSigma. lia.
Qed.

(** On ASCII text the conversion is the simple mapping, character by
    character. *)
Lemma toLowerCase_ASCII s :
  isASCII s -> toLowerCase s = encode (map lowerChar (decode s)).
Proof.
  intros H. unfold toLowerCase.
  rewrite (decode_ASCII s H). now rewrite (lowerChars_ASCII _ H).
Qed.

(** The two letters of a pair of the alphabets have the same simple lower
    case mapping. *)
Lemma letterPairs_lowerChar c d :
  In (c, d) letterPairs -> lowerChar c = lowerChar d.
Proof.
  intros H. vm_compute in H.
  repeat (destruct H as [H | H]; [injection H as <- <-; reflexivity |]).
  destruct H.
Qed.

Lemma sameLetter_lowerChar c d : sameLetter c d -> lowerChar c = lowerChar d.
Proof.
  intros [-> | [H | H]].
  - reflexivity.
  - now apply letterPairs_lowerChar.
  - symmetry. now apply letterPairs_lowerChar.
Qed.

Lemma toLowerCase_sameUpToCase s t :
  isASCII s -> isASCII t -> sameUpToCase s t -> toLowerCase s = toLowerCase t.
Proof.
  intros Hs Ht H. rewrite (toLowerCase_ASCII s Hs), (toLowerCase_ASCII t Ht).
  f_equal. unfold sameUpToCase in H.
  induction H as [| c d l l' Hcd _ IH]; cbn [map]; [reflexivity |].
  now rewrite (sameLetter_lowerChar c d Hcd), IH.
Qed.

(** C7 (as amended).  For each of the keys licenseName, repoName and
    repositoryName the comparator is [localeCompare] applied to the
    [toLowerCase] forms of that field of the two records.  On values made of
    ASCII characters its result does not change when either value is
    replaced by one that differs from it only in the case of its letters,
    and, the collation giving 0 on identical strings, two such values that
    differ only in case compare equal. *)
Theorem stringComparator_ignores_ascii_case localeCompare key field :
  (forall s, localeCompare s s = 0) ->
  In (key, field)
    [ ("licenseName", Repo.licenseName);
      ("repoName", Repo.repoName);
      ("repositoryName", Repo.repositoryName) ] ->
  exists comparator,
    getComparator localeCompare key = Normal comparator
    /\ (forall a b,
          comparator a b
          = localeCompare (toLowerCase (field a)) (toLowerCase (field b)))
    /\ (forall a a' b b',
          isASCII (field a) -> isASCII (field a') ->
          isASCII (field b) -> isASCII (field b') ->
          sameUpToCase (field a) (field a') ->
          sameUpToCase (field b) (field b') ->
          comparator a b = comparator a' b')
    /\ (forall a b,
          isASCII (field a) -> isASCII (field b) ->
          sameUpToCase (field a) (field b) ->
          comparator a b = 0).
Proof.
  intros R K.
  assert (G : getComparator localeCompare key
              = Normal (stringComparator localeCompare field)).
  { cbn [In] in K.
    destruct K as [[= <- <-] | [[= <- <-] | [[= <- <-] | []]]]; reflexivity. }
  exists (stringComparator localeCompare field).
  split; [exact G |]. unfold stringComparator.
  split; [reflexivity |]. split.
  - intros a a' b b' Aa Aa' Ab Ab' Ha Hb.
    now rewrite (toLowerCase_sameUpToCase _ _ Aa Aa' Ha),
      (toLowerCase_sameUpToCase _ _ Ab Ab' Hb).
  - intros a b Aa Ab Hab.
    rewrite (toLowerCase_sameUpToCase _ _ Aa Ab Hab). apply R.
Qed.

(** ** Consistent comparators *)

Section Consistent.

Context {A : Type}.
Variable c : A -> A -> Z.
Hypothesis Hc : consistent c.

Lemma consistent_flip x y :
  (c x y < 0 <-> 0 < c y x) /\ (c x y = 0 <-> c y x = 0).
Proof.
  pose proof (consistent_sgn c Hc x y) as S.
  destruct (c x y), (c y x); unfold Z.sgn in S; lia.
Qed.

Lemma consistent_lt_le x y z : c x y < 0 -> c y z <= 0 -> c x z < 0.
Proof.
  intros Hxy Hyz.
  pose proof (consistent_trans c Hc x y z ltac:(lia) Hyz) as Hxz.
  destruct (Z.eq_dec (c x z) 0) as [E |]; [| lia]. exfalso.
  pose proof (consistent_flip x z) as Fxz.
  pose proof (consistent_trans c Hc z x y ltac:(lia) ltac:(lia)) as Hzy.
  pose proof (consistent_flip y z) as Fyz.
  pose proof (consistent_trans c Hc y z x ltac:(lia) ltac:(lia)) as Hyx.
  pose proof (consistent_flip x y). lia.
Qed.

Lemma consistent_le_lt x y z : c x y <= 0 -> c y z < 0 -> c x z < 0.
Proof.
  intros Hxy Hyz.
  pose proof (consistent_trans c Hc x y z Hxy ltac:(lia)) as Hxz.
  destruct (Z.eq_dec (c x z) 0) as [E |]; [| lia]. exfalso.
  pose proof (consistent_flip x z) as Fxz.
  pose proof (consistent_trans c Hc z x y ltac:(lia) Hxy) as Hzy.
  pose proof (consistent_flip y z). lia.
Qed.

Lemma consistent_eq_eq x y z : c x y = 0 -> c y z = 0 -> c x z = 0.
Proof.
  intros Hxy Hyz.
  pose proof (consistent_trans c Hc x y z ltac:(lia) ltac:(lia)).
  pose proof (consistent_flip x y). pose proof (consistent_flip y z).
  pose proof (consistent_trans c Hc z y x ltac:(lia) ltac:(lia)).
  pose proof (consistent_flip x z). lia.
Qed.

(** Reversing the direction keeps a comparator consistent. *)
Lemma consistent_directed d : consistent (fun x y => directed d (c x y)).
Proof.
  destruct d; cbn [directed].
  - destruct Hc. now split.
  - split.
    + intros x y. rewrite !Z.sgn_opp, (consistent_sgn c Hc x y). reflexivity.
    + intros x y z Hxy Hyz.
      pose proof (consistent_flip x y). pose proof (consistent_flip y z).
      pose proof (consistent_flip x z).
      pose proof (consistent_trans c Hc z y x ltac:(lia) ltac:(lia)). lia.
Qed.

End Consistent.

Lemma consistent_lift {A B} (c : B -> B -> Z) (f : A -> B) :
  consistent c -> consistent (fun x y => c (f x) (f y)).
Proof.
  intros [S T]. split.
  - intros x y. apply S.
  - intros x y z. apply T.
Qed.

Lemma numberComparator_consistent field : consistent (numberComparator field).
Proof.
  split.
  - intros x y. unfold numberComparator.
    destruct (Z.eqb_spec (field y) (field x)), (Z.eqb_spec (field x) (field y)),
      (Z.gtb_spec (field y) (field x)), (Z.gtb_spec (field x) (field y));
      cbn; lia.
  - intros x y z. unfold numberComparator.
    destruct (Z.eqb_spec (field x) (field y)), (Z.eqb_spec (field y) (field z)),
      (Z.eqb_spec (field x) (field z)),
      (Z.gtb_spec (field x) (field y)), (Z.gtb_spec (field y) (field z)),
      (Z.gtb_spec (field x) (field z)); lia.
Qed.

Section ChainFacts.

Variable localeCompare : string -> string -> Z.
Hypothesis collation : consistent localeCompare.

Lemma stringComparator_consistent field :
  consistent (stringComparator localeCompare field).
Proof.
  exact (consistent_lift localeCompare (fun r => toLowerCase (field r)) collation).
Qed.

Lemma columnComparator_consistent key :
  consistent (columnComparator localeCompare key).
Proof.
  unfold columnComparator.
  destruct (getComparator_cases localeCompare key)
    as [(f & _ & ->) | [(f & _ & ->) | (_ & ->)]].
  - apply numberComparator_consistent.
  - apply stringComparator_consistent.
  - split; intros; lia.
Qed.

Lemma chain_consistent sortColumns : consistent (chain localeCompare sortColumns).
Proof.
  induction sortColumns as [| sort rest IH]; cbn [chain].
  - split; intros; lia.
  - pose proof (consistent_directed _
                  (columnComparator_consistent (columnKey sort)) (direction sort)) as G.
    set (g := fun x y =>
                directed (direction sort)
                  (columnComparator localeCompare (columnKey sort) x y)) in G.
    assert (F : forall x y,
               (if negb (columnComparator localeCompare (columnKey sort) x y =? 0)
                then directed (direction sort)
                       (columnComparator localeCompare (columnKey sort) x y)
                else chain localeCompare rest x y)
               = if g x y =? 0 then chain localeCompare rest x y else g x y).
    { intros x y. subst g. cbv beta.
      pose proof (directed_zero (direction sort)
                    (columnComparator localeCompare (columnKey sort) x y)) as D.
      destruct (Z.eqb_spec (columnComparator localeCompare (columnKey sort) x y) 0),
        (Z.eqb_spec (directed (direction sort)
                       (columnComparator localeCompare (columnKey sort) x y)) 0);
        cbn; tauto || reflexivity. }
    split.
    + intros x y. rewrite !F.
      pose proof (consistent_flip g G x y) as Fl.
      pose proof (consistent_sgn _ G x y).
      destruct (Z.eqb_spec (g y x) 0), (Z.eqb_spec (g x y) 0); try lia.
      apply (consistent_sgn _ IH).
    + intros x y z. rewrite !F.
      destruct (Z.eqb_spec (g x y) 0) as [Exy | Nxy],
               (Z.eqb_spec (g y z) 0) as [Eyz | Nyz]; intros Hxy Hyz.
      * rewrite (consistent_eq_eq g G x y z Exy Eyz). cbn.
        now apply (consistent_trans _ IH x y z).
      * pose proof (consistent_le_lt g G x y z ltac:(lia) ltac:(lia)).
        destruct (Z.eqb_spec (g x z) 0); lia.
      * pose proof (consistent_lt_le g G x y z ltac:(lia) ltac:(lia)).
        destruct (Z.eqb_spec (g x z) 0); lia.
      * pose proof (consistent_lt_le g G x y z ltac:(lia) ltac:(lia)).
        destruct (Z.eqb_spec (g x z) 0); lia.
Qed.

(** When every key of the sort state is sortable the callback never throws
    and is the function [chain]. *)
Lemma sortCallback_chain sortColumns :
  Forall (fun sort => In (columnKey sort) sortableKeys) sortColumns ->
  forall a b,
    sortCallback localeCompare sortColumns a b
    = Normal (chain localeCompare sortColumns a b).
Proof.
  induction 1 as [| sort rest Hs _ IH]; intros a b; [reflexivity |].
  cbn [sortCallback chain]. unfold columnComparator.
  apply getComparator_sortable with (localeCompare := localeCompare) in Hs.
  destruct Hs as (cmp & ->). cbn.
  destruct (cmp a b =? 0); cbn; [apply IH | reflexivity].
Qed.

End ChainFacts.

(** ** Sorting with a comparator that does not throw *)

Section SortPureFacts.

Context {A : Type}.
Variable comparefn : A -> A -> completion Z.
Variable c : A -> A -> Z.
Hypothesis comparefn_pure : forall x y, comparefn x y = Normal (c x y).

Lemma insertSorted_pure x sorted :
  insertSorted comparefn x sorted = Normal (insertPure c x sorted).
Proof.
  induction sorted as [| y sorted IH]; cbn [insertSorted insertPure]; [reflexivity |].
  rewrite comparefn_pure. cbn.
  destruct (c x y <=? 0); [reflexivity |]. now rewrite IH.
Qed.

Lemma sortList_pure l : sortList comparefn l = Normal (sortPure c l).
Proof.
  induction l as [| x l IH]; cbn [sortList sortPure]; [reflexivity |].
  rewrite IH. cbn. apply insertSorted_pure.
Qed.

End SortPureFacts.

Section SortFilter.

Context {A : Type}.
Variable c : A -> A -> Z.
Hypothesis Hc : consistent c.

Lemma insertPure_Permutation x l : Permutation (x :: l) (insertPure c x l).
Proof.
  induction l as [| y l IH]; cbn [insertPure]; [reflexivity |].
  destruct (c x y <=? 0); [reflexivity |].
  rewrite perm_swap. now apply perm_skip.
Qed.

Lemma sortPure_Permutation l : Permutation l (sortPure c l).
Proof.
  induction l as [| x l IH]; cbn [sortPure]; [reflexivity |].
  rewrite <- insertPure_Permutation. now apply perm_skip.
Qed.

Lemma insertPure_sorted x l :
  StronglySorted (notAfter c) l -> StronglySorted (notAfter c) (insertPure c x l).
Proof.
  induction 1 as [| y l Hl IH Hy]; cbn [insertPure].
  - repeat constructor.
  - destruct (Z.leb_spec (c x y) 0) as [Hxy | Hxy].
    + constructor; [now constructor |]. constructor; [exact Hxy |].
      eapply Forall_impl; [exact Hy |]. intros z Hz.
      now apply (consistent_trans c Hc x y z).
    + constructor; [exact IH |].
      rewrite <- insertPure_Permutation. constructor; [| exact Hy].
      unfold notAfter. pose proof (consistent_flip c Hc x y). lia.
Qed.

Lemma sortPure_sorted l : StronglySorted (notAfter c) (sortPure c l).
Proof.
  induction l as [| x l IH]; cbn [sortPure]; [constructor | now apply insertPure_sorted].
Qed.

(** An element that is not after any element of a list is inserted at its
    front. *)
Lemma insertPure_front x l : Forall (notAfter c x) l -> insertPure c x l = x :: l.
Proof.
  intros H. destruct H as [| y l Hy _]; cbn [insertPure]; [reflexivity |].
  destruct (Z.leb_spec (c x y) 0); [reflexivity | unfold notAfter in Hy; lia].
Qed.

Lemma Forall_filter (P : A -> Prop) keep l :
  Forall P l -> Forall P (List.filter keep l).
Proof.
  intros H. apply List.Forall_forall. intros z Hz. apply filter_In in Hz.
  rewrite List.Forall_forall in H. now apply H.
Qed.

Variable keep : A -> bool.

Lemma filter_insertPure x l :
  StronglySorted (notAfter c) l ->
  List.filter keep (insertPure c x l)
  = if keep x then insertPure c x (List.filter keep l) else List.filter keep l.
Proof.
  induction 1 as [| y l Hl IH Hy]; cbn [insertPure List.filter].
  - now destruct (keep x).
  - destruct (Z.leb_spec (c x y) 0) as [Hxy | Hxy]; cbn [List.filter].
    + destruct (keep x); [| reflexivity].
      symmetry. apply insertPure_front.
      assert (Hall : Forall (notAfter c x) (y :: l)).
      { constructor; [exact Hxy |].
        eapply Forall_impl; [exact Hy |]. intros z Hz.
        now apply (consistent_trans c Hc x y z). }
      exact (Forall_filter _ keep (y :: l) Hall).
    + rewrite IH. destruct (keep y), (keep x); cbn [insertPure]; try reflexivity.
      destruct (Z.leb_spec (c x y) 0); [lia | reflexivity].
Qed.

(** Filtering commutes with the stable sort. *)
Lemma filter_sortPure l :
  List.filter keep (sortPure c l) = sortPure c (List.filter keep l).
Proof.
  induction l as [| x l IH]; cbn [sortPure List.filter]; [reflexivity |].
  rewrite filter_insertPure by apply sortPure_sorted.
  rewrite IH. now destruct (keep x).
Qed.

(** With a comparator that ties everywhere nothing moves. *)
Lemma sortPure_all_tie l : (forall x y, c x y = 0) -> sortPure c l = l.
Proof.
  intros T. induction l as [| x l IH]; cbn [sortPure]; [reflexivity |].
  rewrite IH. destruct l as [| y l]; cbn [insertPure]; [reflexivity |].
  now rewrite T.
Qed.

End SortFilter.

(** ** The code unit collation is a consistent comparator *)

Lemma Ascii_compare_refl a : Ascii.compare a a = Eq.
Proof. unfold Ascii.compare. apply N.compare_refl. Qed.

Lemma String_compare_refl s : String.compare s s = Eq.
Proof.
  induction s as [| a s IH]; cbn [String.compare]; [reflexivity |].
  now rewrite Ascii_compare_refl.
Qed.

Lemma String_compare_trans s : forall t u,
  String.compare s t <> Gt -> String.compare t u <> Gt -> String.compare s u <> Gt.
Proof.
  induction s as [| a s IH]; intros [| b t] [| d u]; cbn [String.compare];
    try congruence.
  unfold Ascii.compare.
  destruct (N.compare_spec (N_of_ascii a) (N_of_ascii b)) as [Eab | Lab | Gab];
    destruct (N.compare_spec (N_of_ascii b) (N_of_ascii d)) as [Ebd | Lbd | Gbd];
    intros H1 H2; try congruence.
  - rewrite Eab, Ebd, N.compare_refl. now apply (IH t u).
  - rewrite Eab. now apply N.compare_lt_iff in Lbd as ->.
  - rewrite <- Ebd. now apply N.compare_lt_iff in Lab as ->.
  - assert (L : (N_of_ascii a < N_of_ascii d)%N) by lia.
    now apply N.compare_lt_iff in L as ->.
Qed.

Lemma codeUnitCompare_refl s : codeUnitCompare s s = 0.
Proof. unfold codeUnitCompare. now rewrite String_compare_refl. Qed.

Lemma codeUnitCompare_consistent : consistent codeUnitCompare.
Proof.
  split.
  - intros s t. unfold codeUnitCompare. rewrite (String.compare_antisym s t).
    now destruct (String.compare t s).
  - intros s t u. unfold codeUnitCompare.
    pose proof (String_compare_trans s t u) as T.
    destruct (String.compare s t), (String.compare t u), (String.compare s u);
      try lia; intros _ _; exfalso; apply T; congruence.
Qed.

(** ** The pipeline against the specified order of its two steps *)

Lemma StronglySorted_weaken {A} (R S : A -> A -> Prop) l :
  (forall x y, R x y -> S x y) -> StronglySorted R l -> StronglySorted S l.
Proof.
  intros W. induction 1 as [| x l _ IH Hx]; constructor; [exact IH |].
  eapply Forall_impl; [exact Hx | apply W].
Qed.

Lemma numberComparator_compare field a b :
  numberComparator field a b
  = match field a ?= field b with
    | Lt => -1
    | Eq => 0
    | Gt => 1
    end.
Proof.
  unfold numberComparator.
  destruct (Z.compare_spec (field a) (field b)),
    (Z.eqb_spec (field a) (field b)), (Z.gtb_spec (field a) (field b));
    lia || reflexivity.
Qed.

Lemma specColumnCompare_columnComparator localeCompare key a b :
  specColumnCompare localeCompare key a b = columnComparator localeCompare key a b.
Proof.
  unfold specColumnCompare, columnComparator, getComparator.
  destruct (property numberColumns key) as [field |].
  - symmetry. apply numberComparator_compare.
  - now destruct (property stringColumns key).
Qed.

(** On every sort state the comparator chain of the specification is the
    function the sort callback computes when no key is refused. *)
Lemma specChain_chain localeCompare sortColumns a b :
  specChain localeCompare sortColumns a b = chain localeCompare sortColumns a b.
Proof.
  induction sortColumns as [| sort rest IH]; cbn [specChain chain]; [reflexivity |].
  rewrite specColumnCompare_columnComparator, IH.
  now destruct (columnComparator localeCompare (columnKey sort) a b =? 0).
Qed.

Lemma insertPure_ext {A} (c c' : A -> A -> Z) x l :
  (forall a b, c a b = c' a b) -> insertPure c x l = insertPure c' x l.
Proof.
  intros E. induction l as [| y l IH]; cbn [insertPure]; [reflexivity |].
  now rewrite E, IH.
Qed.

Lemma sortPure_ext {A} (c c' : A -> A -> Z) l :
  (forall a b, c a b = c' a b) -> sortPure c l = sortPure c' l.
Proof.
  intros E. induction l as [| x l IH]; cbn [sortPure]; [reflexivity |].
  now rewrite IH, (insertPure_ext c c' _ _ E).
Qed.

Lemma specSortRequest_sortable sortColumns :
  Forall (fun sort => In (columnKey sort) sortableKeys) sortColumns ->
  specSortRequest sortColumns = Normal tt.
Proof.
  intros H. unfold specSortRequest.
  replace (find _ sortColumns) with (@None SortColumn); [reflexivity |].
  symmetry. induction H as [| sort rest Hs _ IH]; cbn [find]; [reflexivity |].
  replace (existsb (String.eqb (columnKey sort)) sortableKeys) with true; [exact IH |].
  symmetry. apply existsb_exists. exists (columnKey sort).
  split; [exact Hs | apply String.eqb_refl].
Qed.

(** C5.  The sort state of the component is made of columns of the grid,
    whose keys are sortable.  For every collection, every filter state and
    every sort state with sortable keys, under a collation that is a
    consistent comparator, the pipeline renders rows, and they are the rows
    of the specification: the records that pass the filter, sorted by the
    comparator chain with tied records in their order. *)
Theorem rows_filter_then_sort localeCompare repos globalFilters sortColumns h collection :
  consistent localeCompare ->
  Forall (fun sort => In (columnKey sort) sortableKeys) sortColumns ->
  h !! repos = Some collection ->
  exists displayed,
    rendered (rows localeCompare repos globalFilters sortColumns h) = Normal displayed
    /\ specRows localeCompare globalFilters sortColumns collection = Normal displayed
    /\ Permutation (List.filter (keeps globalFilters) collection) displayed
    /\ StronglySorted (notAfter (specChain localeCompare sortColumns)) displayed.
Proof.
  intros Hc Hk Hr.
  pose proof (chain_consistent localeCompare Hc sortColumns) as Cc.
  exists (sortPure (chain localeCompare sortColumns)
            (List.filter (keeps globalFilters) collection)).
  split; [| split; [| split]].
  - destruct sortColumns as [| sort rest].
    + rewrite rendered_rows_empty, (elements_lookup _ _ _ Hr).
      now rewrite sortPure_all_tie.
    + rewrite rendered_rows_nonempty, (elements_lookup _ _ _ Hr).
      rewrite (sortList_pure _ _ (sortCallback_chain localeCompare _ Hk)).
      cbn [mbind completion_bind]. f_equal. now apply filter_sortPure.
  - unfold specRows. rewrite (specSortRequest_sortable _ Hk).
    cbn [mbind completion_bind]. f_equal. destruct sortColumns as [| sort rest].
    + now rewrite sortPure_all_tie.
    + apply sortPure_ext. intros a b. apply specChain_chain.
  - apply sortPure_Permutation.
  - eapply StronglySorted_weaken; [| now apply sortPure_sorted].
    intros a b. unfold notAfter. now rewrite specChain_chain.
Qed.

Lemma rows_filter_then_sort_witness :
  exists displayed,
    rendered (rows codeUnitCompare 0%nat (nameFilter "core")
                [{| columnKey := "licenseName"; direction := DESC |};
                 {| columnKey := "collaboratorsCount"; direction := ASC |}]
                [[corefront; widget;
                  sampleRepo "core-api" "mit" 3]])
    = Normal displayed
    /\ specRows codeUnitCompare (nameFilter "core")
         [{| columnKey := "licenseName"; direction := DESC |};
          {| columnKey := "collaboratorsCount"; direction := ASC |}]
         [corefront; widget;
          sampleRepo "core-api" "mit" 3]
       = Normal displayed
    /\ Permutation
         (List.filter (keeps (nameFilter "core"))
            [corefront; widget;
             sampleRepo "core-api" "mit" 3])
         displayed
    /\ StronglySorted
         (notAfter
            (specChain codeUnitCompare
               [{| columnKey := "licenseName"; direction := DESC |};
                {| columnKey := "collaboratorsCount"; direction := ASC |}]))
         displayed.
Proof.
  apply (rows_filter_then_sort codeUnitCompare 0%nat (nameFilter "core")
           [{| columnKey := "licenseName"; direction := DESC |};
            {| columnKey := "collaboratorsCount"; direction := ASC |}]
           [[corefront; widget;
             sampleRepo "core-api" "mit" 3]]).
  - exact codeUnitCompare_consistent.
  - repeat constructor; cbn; tauto.
  - reflexivity.
Defined.

Lemma isASCII_Zebra : isASCII "Zebra" /\ isASCII "zebra".
Proof. split; repeat constructor. Qed.

Lemma sameUpToCase_Zebra : sameUpToCase "Zebra" "zebra".
Proof.
  unfold sameUpToCase. cbn [decode].
  constructor; [right; left; vm_compute; tauto |].
  repeat (constructor; [now left |]). constructor.
Qed.

Lemma stringComparator_ignores_ascii_case_witness :
  exists comparator,
    getComparator codeUnitCompare "repositoryName" = Normal comparator
    /\ comparator (sampleRepo "Zebra" "MIT" 1) (sampleRepo "zebra" "MIT" 1) = 0.
Proof.
  destruct (stringComparator_ignores_ascii_case codeUnitCompare
              "repositoryName" Repo.repositoryName)
    as (comparator & G & _ & _ & Z).
  - exact codeUnitCompare_refl.
  - cbn. tauto.
  - exists comparator. split; [exact G |].
    apply Z; [apply isASCII_Zebra | apply isASCII_Zebra | apply sameUpToCase_Zebra].
Defined.

(** C7 as stated fails outside ASCII.  The two spellings of the Greek word
    differ only in the case of their letters; [toLowerCase] turns the
    capital sigma that ends the first into the final sigma and leaves the
    plain sigma of the second, so the lower-cased values differ and the
    comparator does not return 0. *)
Lemma stringComparator_final_sigma_counterexample :
  sameUpToCase streetUpper streetLower
  /\ decode (toLowerCase streetUpper)
     = [CodePoint 959; CodePoint 948; CodePoint 959; CodePoint 962]
  /\ decode (toLowerCase streetLower)
     = [CodePoint 959; CodePoint 948; CodePoint 959; CodePoint 963]
  /\ getComparator codeUnitCompare "repositoryName"
     = Normal (stringComparator codeUnitCompare Repo.repositoryName)
  /\ stringComparator codeUnitCompare Repo.repositoryName
       (sampleRepo streetUpper "MIT" 1) (sampleRepo streetLower "MIT" 1) <> 0.
Proof.
  split; [| split; [| split; [| split]]].
  - unfold sameUpToCase. vm_compute (decode streetUpper). vm_compute (decode streetLower).
    repeat (constructor; [right; left; vm_compute; tauto |]). constructor.
  - reflexivity.
  - reflexivity.
  - reflexivity.
  - vm_compute. discriminate.
Qed.

(** * Further properties of the component *)

(** ** The sort, whatever the comparator does *)

Section SortAnyComparator.

Context {A : Type}.
Variable comparefn : A -> A -> completion Z.

Lemma insertSorted_Permutation x : forall sorted placed,
  insertSorted comparefn x sorted = Normal placed ->
  Permutation (x :: sorted) placed.
Proof.
  induction sorted as [| y sorted IH]; intros placed; cbn [insertSorted].
  - now intros [= <-].
  - destruct (comparefn x y) as [v |]; cbn; [| discriminate].
    destruct (v <=? 0); [now intros [= <-] |].
    destruct (insertSorted comparefn x sorted) as [p |]; cbn; [| discriminate].
    intros [= <-]. rewrite perm_swap. apply perm_skip. now apply IH.
Qed.

Lemma sortList_Permutation : forall l sorted,
  sortList comparefn l = Normal sorted -> Permutation l sorted.
Proof.
  induction l as [| x l IH]; intros sorted; cbn [sortList].
  - now intros [= <-].
  - destruct (sortList comparefn l) as [s |]; cbn; [| discriminate].
    intros H. apply insertSorted_Permutation in H.
    rewrite <- H. apply perm_skip. now apply IH.
Qed.

Lemma insertSorted_Throw x : forall sorted e,
  insertSorted comparefn x sorted = Throw e ->
  exists y, In y sorted /\ comparefn x y = Throw e.
Proof.
  induction sorted as [| y sorted IH]; intros e; cbn [insertSorted]; [discriminate |].
  destruct (comparefn x y) as [v | e'] eqn:E; cbn.
  - destruct (v <=? 0); [discriminate |].
    destruct (insertSorted comparefn x sorted) as [p | e''] eqn:I; cbn; [discriminate |].
    intros [= <-]. destruct (IH e'' eq_refl) as (z & Hz & T).
    exists z. split; [now right | exact T].
  - intros [= <-]. exists y. split; [now left | exact E].
Qed.

(** An error that leaves the sort was thrown by the comparator on two
    elements of the array. *)
Lemma sortList_Throw : forall l e,
  sortList comparefn l = Throw e ->
  exists x y, In x l /\ In y l /\ comparefn x y = Throw e.
Proof.
  induction l as [| x l IH]; intros e; cbn [sortList]; [discriminate |].
  destruct (sortList comparefn l) as [s | e'] eqn:S; cbn.
  - intros H. apply insertSorted_Throw in H as (y & Hy & T).
    exists x, y. split; [now left |]. split; [| exact T].
    right. eapply Permutation_in; [symmetry; eapply sortList_Permutation, S | exact Hy].
  - intros [= <-]. destruct (IH e' eq_refl) as (a & b & Ha & Hb & T).
    exists a, b. split; [now right |]. split; [now right | exact T].
Qed.

(** The comparator is not called on an array of at most one element. *)
Lemma sortList_short l : (length l <= 1)%nat -> sortList comparefn l = Normal l.
Proof.
  destruct l as [| x [| y l]]; cbn [length]; [reflexivity | reflexivity | lia].
Qed.

End SortAnyComparator.

Lemma Permutation_filter {A} (keep : A -> bool) l l' :
  Permutation l l' -> Permutation (List.filter keep l) (List.filter keep l').
Proof.
  induction 1 as [| x l l' _ IH | x y l | l l' l'' _ IH1 _ IH2]; cbn [List.filter].
  - reflexivity.
  - destruct (keep x); [now apply perm_skip | exact IH].
  - destruct (keep x), (keep y); try reflexivity. apply perm_swap.
  - now rewrite IH1.
Qed.

Lemma sortCallback_Throw_inv localeCompare sortColumns a b e :
  sortCallback localeCompare sortColumns a b = Throw e ->
  exists sort,
    In sort sortColumns
    /\ ~ In (columnKey sort) sortableKeys
    /\ e = UnsupportedSortColumn (columnKey sort).
Proof.
  induction sortColumns as [| sort rest IH]; cbn [sortCallback]; [discriminate |].
  destruct (getComparator_cases localeCompare (columnKey sort))
    as [(f & _ & ->) | [(f & _ & ->) | (N & ->)]]; cbn.
  - destruct (negb _); [discriminate |].
    intros H. destruct (IH H) as (s & Hs & R). exists s. split; [now right | exact R].
  - destruct (negb _); [discriminate |].
    intros H. destruct (IH H) as (s & Hs & R). exists s. split; [now right | exact R].
  - intros [= <-]. exists sort. split; [now left |]. now split.
Qed.

(** The pipeline, step by step on the heap. *)
Lemma rows_empty_run localeCompare repos globalFilters h :
  rows localeCompare repos globalFilters [] h
  = (Normal (length h),
     h ++ [List.filter (keeps globalFilters) (elements h repos)]).
Proof. reflexivity. Qed.

Lemma rows_nonempty_run localeCompare repos globalFilters sort rest h :
  rows localeCompare repos globalFilters (sort :: rest) h =
  match sortList (sortCallback localeCompare (sort :: rest)) (elements h repos) with
  | Normal sorted =>
      (Normal (S (length h)),
       (h ++ [sorted]) ++ [List.filter (keeps globalFilters) sorted])
  | Throw e => (Throw e, h ++ [elements h repos])
  end.
Proof.
  unfold rows. unfold mbind at 1. unfold Exec_bind. rewrite sortRepos_nonempty.
  destruct (sortList _ _) as [sorted | e]; [| reflexivity].
  rewrite filterRepos_run, elements_alloc. f_equal.
  rewrite length_app. cbn [length]. f_equal. lia.
Qed.

(** X1.  An error thrown by the pipeline is the unsupported-column error of
    a key of the sort state that is not sortable, and it can only be thrown
    when the collection has at least two records: nothing else in the
    pipeline throws. *)
Theorem rows_throws_only_unsupported localeCompare repos globalFilters sortColumns h e :
  rendered (rows localeCompare repos globalFilters sortColumns h) = Throw e ->
  (exists sort,
      In sort sortColumns
      /\ ~ In (columnKey sort) sortableKeys
      /\ e = UnsupportedSortColumn (columnKey sort))
  /\ (2 <= length (elements h repos))%nat.
Proof.
  destruct sortColumns as [| sort rest].
  - rewrite rendered_rows_empty. discriminate.
  - rewrite rendered_rows_nonempty.
    destruct (sortList _ (elements h repos)) as [sorted | e'] eqn:S; cbn; [discriminate |].
    intros [= <-]. split.
    + apply sortList_Throw in S as (x & y & _ & _ & T).
      now apply sortCallback_Throw_inv in T.
    + destruct (le_lt_dec (length (elements h repos)) 1) as [Hs | Hl]; [| lia].
      rewrite (sortList_short _ _ Hs) in S. discriminate.
Qed.

Lemma rows_throws_only_unsupported_witness :
  (exists sort,
      In sort [{| columnKey := "licenseName"; direction := ASC |};
               {| columnKey := "stargazersCount"; direction := DESC |}]
      /\ ~ In (columnKey sort) sortableKeys
      /\ UnsupportedSortColumn "stargazersCount" = UnsupportedSortColumn (columnKey sort))
  /\ (2 <= length (elements [[coreApi; widget; corefront]] 0%nat))%nat.
Proof.
  apply (rows_throws_only_unsupported codeUnitCompare 0%nat initialFilters
           [{| columnKey := "licenseName"; direction := ASC |};
            {| columnKey := "stargazersCount"; direction := DESC |}]
           [[coreApi; widget; corefront]]).
  reflexivity.
Defined.

(** X2.  On an input of at most one record [sortRepos] never calls the
    callback: even with a key that [getComparator] refuses it throws
    nothing and returns a new array with the elements of the input. *)
Theorem sortRepos_short_input localeCompare repos sort rest inputRepos h :
  (length (elements h inputRepos) <= 1)%nat ->
  sortRepos localeCompare repos (sort :: rest) inputRepos h
  = (Normal (length h), h ++ [elements h inputRepos]).
Proof.
  intros Hs. now rewrite sortRepos_nonempty, sortList_short.
Qed.

Lemma sortRepos_short_input_witness :
  sortRepos codeUnitCompare 0%nat
    [{| columnKey := "stargazersCount"; direction := ASC |}] 0%nat [[coreApi]]
  = (Normal 1%nat, [[coreApi]; [coreApi]]).
Proof.
  apply (sortRepos_short_input codeUnitCompare 0%nat
           {| columnKey := "stargazersCount"; direction := ASC |} [] 0%nat [[coreApi]]).
  cbn. lia.
Defined.

(** X3.  When [sortRepos] returns with a sort state that is not empty, it
    returns an array that did not exist before, so never its input nor
    [repos]; that array holds the records of the input, each as often as
    the input does, and every array that existed keeps its elements. *)
Theorem sortRepos_fresh_permutation localeCompare repos sort rest inputRepos h sortedRows h' :
  sortRepos localeCompare repos (sort :: rest) inputRepos h = (Normal sortedRows, h') ->
  h !! sortedRows = None
  /\ length h' = S (length h)
  /\ Permutation (elements h inputRepos) (elements h' sortedRows)
  /\ (forall r, (r < length h)%nat -> elements h' r = elements h r).
Proof.
  rewrite sortRepos_nonempty.
  destruct (sortList _ (elements h inputRepos)) as [sorted | e] eqn:S; [| discriminate].
  intros [= <- <-]. split; [| split; [| split]].
  - apply lookup_ge_None. lia.
  - rewrite length_app. cbn [length]. lia.
  - rewrite elements_alloc. eapply sortList_Permutation, S.
  - intros r Hr. now apply elements_alloc_old.
Qed.

Lemma sortRepos_fresh_permutation_witness :
  [[widget; coreApi]] !! 1%nat = None
  /\ length [[widget; coreApi]; [coreApi; widget]] = 2%nat
  /\ Permutation (elements [[widget; coreApi]] 0%nat)
       (elements [[widget; coreApi]; [coreApi; widget]] 1%nat)
  /\ (forall r, (r < length [[widget; coreApi]])%nat ->
        elements [[widget; coreApi]; [coreApi; widget]] r
        = elements [[widget; coreApi]] r).
Proof.
  apply (sortRepos_fresh_permutation codeUnitCompare 0%nat
           {| columnKey := "repositoryName"; direction := ASC |} [] 0%nat
           [[widget; coreApi]] 1%nat [[widget; coreApi]; [coreApi; widget]]).
  reflexivity.
Defined.

(** X4.  The pipeline is read-only and complete.  Whatever the filter and
    sort states and whatever the outcome, every array that existed before,
    the collection included, keeps its elements; and when rows are rendered
    they are the records of the collection that pass the filter, each as
    often as it occurs there, so their number does not depend on the sort
    state. *)
Theorem rows_read_only_and_complete localeCompare repos globalFilters sortColumns h :
  (forall r, (r < length h)%nat ->
     elements (rows localeCompare repos globalFilters sortColumns h).2 r
     = elements h r)
  /\ (forall displayed,
        rendered (rows localeCompare repos globalFilters sortColumns h) = Normal displayed ->
        Permutation (List.filter (keeps globalFilters) (elements h repos)) displayed
        /\ length displayed
           = length (List.filter (keeps globalFilters) (elements h repos))).
Proof.
  split.
  - intros r Hr. destruct sortColumns as [| sort rest].
    + rewrite rows_empty_run. cbn [snd]. now apply elements_alloc_old.
    + rewrite rows_nonempty_run. destruct (sortList _ _); cbn [snd].
      * rewrite elements_alloc_old by (rewrite length_app; cbn [length]; lia).
        now apply elements_alloc_old.
      * now apply elements_alloc_old.
  - intros displayed H.
    assert (P : Permutation (List.filter (keeps globalFilters) (elements h repos))
                  displayed).
    { destruct sortColumns as [| sort rest].
      - rewrite rendered_rows_empty in H. now injection H as <-.
      - rewrite rendered_rows_nonempty in H.
        destruct (sortList _ (elements h repos)) as [sorted | e] eqn:S;
          cbn in H; [| discriminate].
        injection H as <-. apply Permutation_filter. eapply sortList_Permutation, S. }
    split; [exact P | symmetry; now apply Permutation_length].
Qed.

Lemma rows_read_only_and_complete_witness :
  Permutation
    (List.filter (keeps (nameFilter "core")) (elements [[widget; corefront; coreApi]] 0%nat))
    [coreApi; corefront]
  /\ length [coreApi; corefront]
     = length (List.filter (keeps (nameFilter "core"))
                 (elements [[widget; corefront; coreApi]] 0%nat)).
Proof.
  apply (proj2 (rows_read_only_and_complete codeUnitCompare 0%nat (nameFilter "core")
                  [{| columnKey := "repositoryName"; direction := ASC |}]
                  [[widget; corefront; coreApi]])).
  reflexivity.
Defined.

(** ** Order, stability and idempotence of the sort *)

Section SortedInput.

Context {A : Type}.
Variable c : A -> A -> Z.

(** Sorting a sorted array changes nothing. *)
Lemma sortPure_sorted_id l : StronglySorted (notAfter c) l -> sortPure c l = l.
Proof.
  induction 1 as [| x l _ IH Hx]; cbn [sortPure]; [reflexivity |].
  rewrite IH. now apply insertPure_front.
Qed.

Hypothesis Hc : consistent c.

Lemma tied_sorted x l :
  Forall (fun y => c x y = 0) l -> StronglySorted (notAfter c) l.
Proof.
  induction 1 as [| y l Hy Hl IH]; constructor; [exact IH |].
  eapply Forall_impl; [exact Hl |]. intros z Hz. unfold notAfter.
  pose proof (consistent_flip c Hc x y).
  pose proof (consistent_eq_eq c Hc y x z ltac:(lia) Hz). lia.
Qed.

(** The elements that tie with [x] leave the sort in the order in which
    they entered it. *)
Lemma sortPure_stable x l :
  List.filter (fun y => c x y =? 0) (sortPure c l)
  = List.filter (fun y => c x y =? 0) l.
Proof.
  rewrite (filter_sortPure c Hc). apply sortPure_sorted_id, (tied_sorted x).
  apply List.Forall_forall. intros y Hy. apply filter_In in Hy as [_ Hy].
  now apply Z.eqb_eq.
Qed.

End SortedInput.

Lemma tiedWith_chain localeCompare sortColumns x l :
  Forall (fun sort => In (columnKey sort) sortableKeys) sortColumns ->
  tiedWith localeCompare sortColumns x l
  = List.filter (fun y => chain localeCompare sortColumns x y =? 0) l.
Proof.
  intros Hk. unfold tiedWith. apply filter_ext. intros y.
  now rewrite (sortCallback_chain localeCompare sortColumns Hk).
Qed.

Lemma sortRepos_sortable_run localeCompare repos sort rest inputRepos h :
  Forall (fun s => In (columnKey s) sortableKeys) (sort :: rest) ->
  sortRepos localeCompare repos (sort :: rest) inputRepos h
  = (Normal (length h),
     h ++ [sortPure (chain localeCompare (sort :: rest)) (elements h inputRepos)]).
Proof.
  intros Hk. rewrite sortRepos_nonempty.
  now rewrite (sortList_pure _ _ (sortCallback_chain localeCompare _ Hk)).
Qed.

(** X5.  The sort of [sortRepos] is stable: with sortable keys and a
    consistent collation, the records on which the callback returns 0
    against any given record appear in the sorted array in the order they
    have in the input. *)
Theorem sortRepos_stable localeCompare repos sort rest inputRepos h :
  consistent localeCompare ->
  Forall (fun s => In (columnKey s) sortableKeys) (sort :: rest) ->
  exists sorted,
    rendered (sortRepos localeCompare repos (sort :: rest) inputRepos h) = Normal sorted
    /\ forall x,
         tiedWith localeCompare (sort :: rest) x sorted
         = tiedWith localeCompare (sort :: rest) x (elements h inputRepos).
Proof.
  intros Hc Hk. rewrite (sortRepos_sortable_run _ _ _ _ _ _ Hk).
  cbn [rendered]. rewrite elements_alloc. eexists. split; [reflexivity |].
  intros x. rewrite !(tiedWith_chain _ _ _ _ Hk).
  apply sortPure_stable. now apply chain_consistent.
Qed.

Lemma sortRepos_stable_witness :
  exists sorted,
    rendered (sortRepos codeUnitCompare 0%nat
                [{| columnKey := "licenseName"; direction := ASC |}] 0%nat
                [[corefront; widget; coreApi]])
    = Normal sorted
    /\ forall x,
         tiedWith codeUnitCompare
           [{| columnKey := "licenseName"; direction := ASC |}] x sorted
         = tiedWith codeUnitCompare
             [{| columnKey := "licenseName"; direction := ASC |}] x
             (elements [[corefront; widget; coreApi]] 0%nat).
Proof.
  apply (sortRepos_stable codeUnitCompare 0%nat
           {| columnKey := "licenseName"; direction := ASC |} [] 0%nat
           [[corefront; widget; coreApi]]).
  - exact codeUnitCompare_consistent.
  - repeat constructor; cbn; tauto.
Defined.

(** X6.  Sorting is idempotent: with sortable keys and a consistent
    collation, giving the array returned by [sortRepos] to [sortRepos]
    again, under the same sort state, returns the same sequence. *)
Theorem sortRepos_idempotent localeCompare repos sort rest inputRepos h :
  consistent localeCompare ->
  Forall (fun s => In (columnKey s) sortableKeys) (sort :: rest) ->
  exists once,
    rendered (sortRepos localeCompare repos (sort :: rest) inputRepos h) = Normal once
    /\ rendered ((first ← sortRepos localeCompare repos (sort :: rest) inputRepos;
                  sortRepos localeCompare repos (sort :: rest) first) h)
       = Normal once.
Proof.
  intros Hc Hk. unfold mbind, Exec_bind.
  rewrite (sortRepos_sortable_run _ _ _ _ _ _ Hk).
  rewrite (sortRepos_sortable_run _ _ _ _ _ _ Hk).
  cbn [rendered]. rewrite !elements_alloc. eexists. split; [reflexivity |].
  f_equal. apply sortPure_sorted_id, sortPure_sorted. now apply chain_consistent.
Qed.

Lemma sortRepos_idempotent_witness :
  exists once,
    rendered (sortRepos codeUnitCompare 0%nat
                [{| columnKey := "collaboratorsCount"; direction := DESC |}] 0%nat
                [[coreApi; widget; corefront]])
    = Normal once
    /\ rendered ((first ← sortRepos codeUnitCompare 0%nat
                             [{| columnKey := "collaboratorsCount"; direction := DESC |}]
                             0%nat;
                  sortRepos codeUnitCompare 0%nat
                    [{| columnKey := "collaboratorsCount"; direction := DESC |}] first)
                   [[coreApi; widget; corefront]])
       = Normal once.
Proof.
  apply (sortRepos_idempotent codeUnitCompare 0%nat
           {| columnKey := "collaboratorsCount"; direction := DESC |} [] 0%nat
           [[coreApi; widget; corefront]]).
  - exact codeUnitCompare_consistent.
  - repeat constructor; cbn; tauto.
Defined.

(** X7.  With sortable keys and a consistent collation the sort callback
    never throws and is itself a consistent comparator, as [sort] requires
    for a defined order: swapping the arguments swaps the sign and "not
    after" is transitive. *)
Theorem sortCallback_consistent localeCompare sortColumns :
  consistent localeCompare ->
  Forall (fun s => In (columnKey s) sortableKeys) sortColumns ->
  exists f,
    (forall a b, sortCallback localeCompare sortColumns a b = Normal (f a b))
    /\ (forall a b, Z.sgn (f b a) = - Z.sgn (f a b))
    /\ (forall a b c, f a b <= 0 -> f b c <= 0 -> f a c <= 0).
Proof.
  intros Hc Hk. exists (chain localeCompare sortColumns).
  destruct (chain_consistent localeCompare Hc sortColumns) as [S T].
  split; [now apply sortCallback_chain |]. now split.
Qed.

Lemma sortCallback_consistent_witness :
  exists f,
    (forall a b,
        sortCallback codeUnitCompare
          [{| columnKey := "licenseName"; direction := DESC |};
           {| columnKey := "forksCount"; direction := ASC |}] a b
        = Normal (f a b))
    /\ (forall a b, Z.sgn (f b a) = - Z.sgn (f a b))
    /\ (forall a b c, f a b <= 0 -> f b c <= 0 -> f a c <= 0).
Proof.
  apply (sortCallback_consistent codeUnitCompare
           [{| columnKey := "licenseName"; direction := DESC |};
            {| columnKey := "forksCount"; direction := ASC |}]).
  - exact codeUnitCompare_consistent.
  - repeat constructor; cbn; tauto.
Defined.

Lemma sortCallback_single_number localeCompare key field d a b :
  property numberColumns key = Some field ->
  sortCallback localeCompare [{| columnKey := key; direction := d |}] a b
  = Normal (directed d (numberComparator field a b)).
Proof.
  intros P. cbn [sortCallback columnKey direction]. unfold getComparator. rewrite P. cbn.
  destruct (Z.eqb_spec (numberComparator field a b) 0) as [-> | _]; cbn; [| reflexivity].
  now destruct d.
Qed.

Lemma numberComparator_le field a b :
  numberComparator field a b <= 0 <-> field a <= field b.
Proof.
  unfold numberComparator.
  destruct (Z.eqb_spec (field a) (field b)), (Z.gtb_spec (field a) (field b)); lia.
Qed.

(** X8.  Sorting by a single numeric column, whatever the collation, throws
    nothing and returns the records of the input in non-decreasing order of
    that counter for [ASC] and in non-increasing order for [DESC]. *)
Theorem single_numeric_column_order localeCompare repos key field d inputRepos h :
  property numberColumns key = Some field ->
  exists sorted,
    rendered (sortRepos localeCompare repos
                [{| columnKey := key; direction := d |}] inputRepos h)
    = Normal sorted
    /\ Permutation (elements h inputRepos) sorted
    /\ StronglySorted (inDirection d field) sorted.
Proof.
  intros P.
  set (c := fun a b => directed d (numberComparator field a b)).
  assert (Hc : consistent c)
    by apply (consistent_directed _ (numberComparator_consistent field) d).
  exists (sortPure c (elements h inputRepos)).
  split; [| split].
  - rewrite sortRepos_nonempty.
    rewrite (sortList_pure _ c
               (fun a b => sortCallback_single_number localeCompare key field d a b P)).
    cbn [rendered]. now rewrite elements_alloc.
  - apply sortPure_Permutation.
  - eapply StronglySorted_weaken; [| apply (sortPure_sorted c Hc)].
    intros x y. unfold notAfter, c, inDirection.
    pose proof (numberComparator_le field x y).
    pose proof (numberComparator_le field y x).
    pose proof (consistent_flip _ (numberComparator_consistent field) x y).
    destruct d; cbn [directed]; lia.
Qed.

Lemma single_numeric_column_order_witness :
  exists sorted,
    rendered (sortRepos codeUnitCompare 0%nat
                [{| columnKey := "collaboratorsCount"; direction := DESC |}] 0%nat
                [[coreApi; corefront; widget]])
    = Normal sorted
    /\ Permutation (elements [[coreApi; corefront; widget]] 0%nat) sorted
    /\ StronglySorted (inDirection DESC Repo.collaboratorsCount) sorted.
Proof.
  apply (single_numeric_column_order codeUnitCompare 0%nat "collaboratorsCount"
           Repo.collaboratorsCount DESC 0%nat [[coreApi; corefront; widget]]).
  reflexivity.
Defined.

(** ** The filter state and its handlers *)

Lemma append_assoc (s t u : string) : (s +:+ t) +:+ u = s +:+ t +:+ u.
Proof.
  induction s as [| c s IH]; [reflexivity |].
  change (String c ((s +:+ t) +:+ u) = String c (s +:+ t +:+ u)). now rewrite IH.
Qed.

Lemma substring_trans s t u : substring s t -> substring t u -> substring s u.
Proof.
  intros (b1 & a1 & ->) (b2 & a2 & ->).
  exists (b2 +:+ b1), (a1 +:+ a2). now rewrite !append_assoc.
Qed.

Lemma substring_empty s : substring s EmptyString -> s = EmptyString.
Proof.
  intros ([| c b] & a & E); [| discriminate].
  destruct s; [reflexivity | discriminate].
Qed.

Lemma filter_sublist {A} (keep : A -> bool) l : sublist (List.filter keep l) l.
Proof.
  induction l as [| x l IH]; cbn [List.filter]; [constructor |].
  destruct (keep x); now constructor.
Qed.

Lemma filter_twice {A} (f g : A -> bool) l :
  List.filter f (List.filter g l) = List.filter (fun x => g x && f x) l.
Proof.
  induction l as [| x l IH]; cbn [List.filter]; [reflexivity |].
  destruct (g x); cbn [List.filter andb]; [| exact IH].
  destruct (f x); now rewrite IH.
Qed.

Lemma keeps_andb globalFilters repo :
  keeps globalFilters repo
  = ToBoolean (nameClause globalFilters repo)
    && ToBoolean (licenseClause globalFilters repo)
    && ToBoolean (collaboratorsClause globalFilters repo).
Proof. unfold keeps, filterCallback. now rewrite !ToBoolean_and. Qed.

(** X9.  At mount, with the initial filter state and no sort column, every
    record passes the filter and the grid is given the whole collection in
    its insertion order. *)
Theorem mount_shows_whole_collection localeCompare repos h collection :
  h !! repos = Some collection ->
  (forall repo, keeps initialFilters repo = true)
  /\ rendered (rows localeCompare repos initialFilters [] h) = Normal collection.
Proof.
  intros H. split; [reflexivity |].
  rewrite rendered_rows_empty, (elements_lookup _ _ _ H). f_equal.
  apply forallb_filter_id, forallb_forall. reflexivity.
Qed.

Lemma mount_shows_whole_collection_witness :
  (forall repo, keeps initialFilters repo = true)
  /\ rendered (rows codeUnitCompare 0%nat initialFilters [] [[widget; coreApi]])
     = Normal [widget; coreApi].
Proof.
  apply (mount_shows_whole_collection codeUnitCompare 0%nat [[widget; coreApi]]).
  reflexivity.
Defined.

(** X10.  Typing in the name input narrows the rows: when the text [s']
    occurs in the text [s], every record kept with [s] in the input is kept
    with [s'] in it, the other dimensions being the same.  Clearing the
    input stores the empty string, which constrains nothing: the verdict is
    that of the state without a name. *)
Theorem name_input_narrows otherFilters :
  (forall s s' repo,
      substring s' s ->
      keeps (onRepositoryNameChange s otherFilters) repo = true ->
      keeps (onRepositoryNameChange s' otherFilters) repo = true)
  /\ (forall s repo,
        keeps (onRepositoryNameChange EmptyString
                 (onRepositoryNameChange s otherFilters)) repo
        = ToBoolean (licenseClause otherFilters repo)
          && ToBoolean (collaboratorsClause otherFilters repo)).
Proof.
  split.
  - intros s s' repo Hsub. rewrite !keeps_clauses, !nameClause_true.
    cbn [onRepositoryNameChange Filter.repositoryName].
    intros ([-> | Hs] & Hl & Hc); (split; [| split; assumption]).
    + left. now apply substring_empty.
    + right. now apply (substring_trans s' s).
  - intros s repo. now rewrite keeps_andb.
Qed.

Lemma name_input_narrows_witness :
  keeps (onRepositoryNameChange "ore" initialFilters) coreApi = true.
Proof.
  apply (proj1 (name_input_narrows initialFilters) "core-a" "ore" coreApi).
  - exists "c", "-a". reflexivity.
  - reflexivity.
Defined.

(** X11.  A collaborator range whose minimum exceeds its maximum keeps no
    record: [filterRepos] returns an empty array. *)
Theorem inverted_range_keeps_nothing globalFilters min max inputRepos h :
  Filter.collaboratorsCount globalFilters = Some [Some min; Some max] ->
  max < min ->
  rendered (filterRepos globalFilters inputRepos h) = Normal [].
Proof.
  intros Hr Hlt. rewrite filterRepos_run. cbn [rendered]. rewrite elements_alloc.
  f_equal. induction (elements h inputRepos) as [| repo l IH]; [reflexivity |].
  cbn [List.filter]. destruct (keeps globalFilters repo) eqn:K; [| exact IH].
  apply keeps_clauses in K as (_ & _ & K).
  rewrite collaboratorsClause_true, Hr in K. cbn in K.
  destruct K as [K1 K2]. specialize (K2 max eq_refl). lia.
Qed.

Lemma inverted_range_keeps_nothing_witness :
  rendered (filterRepos (collaboratorsFilter [Some 10; Some 5]) 0%nat
              [[coreApi; widget; corefront]])
  = Normal [].
Proof.
  apply (inverted_range_keeps_nothing (collaboratorsFilter [Some 10; Some 5]) 10 5).
  - reflexivity.
  - lia.
Defined.

(** X12.  The two collaborator inputs do not commute.  Typing a maximum
    [m] stores the range [[0, m]] and so discards a minimum typed before:
    the records kept are those with [0 <= count <= m].  Typing a minimum
    [n] keeps the maximum stored before: after the maximum [m] the records
    kept are those with [n <= count <= m], and with no range stored before
    those with [n <= count]. *)
Theorem collaborator_inputs_order otherFilters n m repo :
  (ToBoolean (collaboratorsClause
                (onCollaboratorsCountMaxChange m
                   (onCollaboratorsCountMinChange n otherFilters)) repo) = true
   <-> 0 <= Repo.collaboratorsCount repo <= m)
  /\ (ToBoolean (collaboratorsClause
                   (onCollaboratorsCountMinChange n
                      (onCollaboratorsCountMaxChange m otherFilters)) repo) = true
      <-> n <= Repo.collaboratorsCount repo <= m)
  /\ (Filter.collaboratorsCount otherFilters = None ->
      (ToBoolean (collaboratorsClause
                    (onCollaboratorsCountMinChange n otherFilters) repo) = true
       <-> n <= Repo.collaboratorsCount repo)).
Proof.
  split; [| split].
  - rewrite collaboratorsClause_true. cbn. split.
    + intros [H1 H2]. specialize (H2 m eq_refl). lia.
    + intros [H1 H2]. split; [exact H1 | now intros ? [= <-]].
  - rewrite collaboratorsClause_true. cbn. split.
    + intros [H1 H2]. specialize (H2 m eq_refl). lia.
    + intros [H1 H2]. split; [exact H1 | now intros ? [= <-]].
  - intros Hn. rewrite collaboratorsClause_true.
    cbn [onCollaboratorsCountMinChange Filter.collaboratorsCount]. rewrite Hn. cbn.
    split; [tauto | intros H; split; [exact H | discriminate]].
Qed.

Lemma collaborator_inputs_order_witness :
  ToBoolean (collaboratorsClause
               (onCollaboratorsCountMinChange 5 initialFilters) corefront) = true
  <-> 5 <= Repo.collaboratorsCount corefront.
Proof.
  apply (proj2 (proj2 (collaborator_inputs_order initialFilters 5 0 corefront))).
  reflexivity.
Defined.

(** X13.  The three dimensions of the filter are independent: a record
    passes the filter state exactly when it passes each dimension taken
    alone, and filtering by the whole state gives the same array as
    filtering by the three dimensions one after the other. *)
Theorem filter_dimensions_compose globalFilters :
  (forall repo,
      keeps globalFilters repo
      = keeps (nameOnly globalFilters) repo
        && keeps (licenseOnly globalFilters) repo
        && keeps (collaboratorsOnly globalFilters) repo)
  /\ (forall inputRepos h,
        rendered ((byCount ← filterRepos (collaboratorsOnly globalFilters) inputRepos;
                   byLicense ← filterRepos (licenseOnly globalFilters) byCount;
                   filterRepos (nameOnly globalFilters) byLicense) h)
        = rendered (filterRepos globalFilters inputRepos h)).
Proof.
  assert (K : forall repo,
             keeps globalFilters repo
             = keeps (nameOnly globalFilters) repo
               && keeps (licenseOnly globalFilters) repo
               && keeps (collaboratorsOnly globalFilters) repo).
  { intros repo. rewrite !keeps_andb.
    change (nameClause (nameOnly globalFilters) repo)
      with (nameClause globalFilters repo).
    change (licenseClause (licenseOnly globalFilters) repo)
      with (licenseClause globalFilters repo).
    change (collaboratorsClause (collaboratorsOnly globalFilters) repo)
      with (collaboratorsClause globalFilters repo).
    cbn. now rewrite !andb_true_r. }
  split; [exact K |].
  intros inputRepos h. unfold mbind, Exec_bind.
  rewrite !filterRepos_run. cbn [rendered]. rewrite !elements_alloc.
  f_equal. rewrite !filter_twice. apply filter_ext. intros repo.
  rewrite (K repo).
  destruct (keeps (nameOnly globalFilters) repo),
    (keeps (licenseOnly globalFilters) repo),
    (keeps (collaboratorsOnly globalFilters) repo); reflexivity.
Qed.

(** X14.  [filterRepos] returns an array that did not exist before.  Its
    elements are a subsequence of the input, in the input's order, and all
    pass the filter; every array that existed keeps its elements; and
    filtering the result again under the same state returns the same
    sequence. *)
Theorem filterRepos_subsequence globalFilters inputRepos h result h' :
  filterRepos globalFilters inputRepos h = (Normal result, h') ->
  h !! result = None
  /\ sublist (elements h' result) (elements h inputRepos)
  /\ Forall (fun repo => keeps globalFilters repo = true) (elements h' result)
  /\ (forall r, (r < length h)%nat -> elements h' r = elements h r)
  /\ rendered (filterRepos globalFilters result h') = Normal (elements h' result).
Proof.
  rewrite filterRepos_run. intros [= <- <-]. rewrite !elements_alloc.
  split; [apply lookup_ge_None; lia |].
  split; [apply filter_sublist |].
  split; [apply List.Forall_forall; intros repo Hr; now apply filter_In in Hr |].
  split; [intros r Hr; now apply elements_alloc_old |].
  rewrite filterRepos_run. cbn [rendered]. rewrite !elements_alloc.
  f_equal. rewrite filter_twice. apply filter_ext. intros repo. apply andb_diag.
Qed.

Lemma filterRepos_subsequence_witness :
  [[coreApi; widget; corefront]] !! 1%nat = None
  /\ sublist (elements [[coreApi; widget; corefront]; [coreApi; corefront]] 1%nat)
       (elements [[coreApi; widget; corefront]] 0%nat)
  /\ Forall (fun repo => keeps (nameFilter "core") repo = true)
       (elements [[coreApi; widget; corefront]; [coreApi; corefront]] 1%nat)
  /\ (forall r, (r < length [[coreApi; widget; corefront]])%nat ->
        elements [[coreApi; widget; corefront]; [coreApi; corefront]] r
        = elements [[coreApi; widget; corefront]] r)
  /\ rendered (filterRepos (nameFilter "core") 1%nat
                 [[coreApi; widget; corefront]; [coreApi; corefront]])
     = Normal (elements [[coreApi; widget; corefront]; [coreApi; corefront]] 1%nat).
Proof.
  apply (filterRepos_subsequence (nameFilter "core") 0%nat
           [[coreApi; widget; corefront]] 1%nat
           [[coreApi; widget; corefront]; [coreApi; corefront]]).
  reflexivity.
Defined.

(** ** The license dropdown and the columns of the grid *)

Section SetFacts.

Context {A : Type} `{EqDecision A}.

Lemma Set_add_spec (s : list A) x :
  NoDup s ->
  NoDup (Set_add s x)
  /\ (forall y, In y (Set_add s x) <-> In y s \/ y = x)
  /\ exists rest, Set_add s x = s ++ rest.
Proof.
  intros N. unfold Set_add. destruct (decide (x ∈ s)) as [Hin | Hout].
  - split; [exact N |]. split.
    + intros y. split; [tauto |]. intros [H | ->]; [exact H |].
      now apply list_elem_of_In.
    + exists []. now rewrite app_nil_r.
  - split; [| split].
    + apply NoDup_app. split; [exact N |]. split.
      * intros y Hy [-> | []]%list_elem_of_In. contradiction.
      * apply NoDup_singleton.
    + intros y. rewrite in_app_iff. cbn. intuition congruence.
    + now exists [x].
Qed.

Lemma Set_fold_spec (l : list A) : forall acc,
  NoDup acc ->
  NoDup (fold_left Set_add l acc)
  /\ (forall y, In y (fold_left Set_add l acc) <-> In y acc \/ In y l)
  /\ exists rest, fold_left Set_add l acc = acc ++ rest.
Proof.
  induction l as [| x l IH]; intros acc N; cbn [fold_left].
  - split; [exact N |]. split; [cbn; tauto |]. exists []. now rewrite app_nil_r.
  - destruct (Set_add_spec acc x N) as (N1 & M1 & r1 & E1).
    destruct (IH (Set_add acc x) N1) as (N2 & M2 & r2 & E2).
    split; [exact N2 |]. split.
    + intros y. rewrite M2, M1. cbn. intuition congruence.
    + exists (r1 ++ r2). now rewrite E2, E1, app_assoc.
Qed.

Lemma Set_from_spec (l : list A) :
  NoDup (Set_from l) /\ forall y, In y (Set_from l) <-> In y l.
Proof.
  destruct (Set_fold_spec l [] (NoDup_nil_2 (A := A))) as (N & M & _).
  split; [exact N |]. intros y. rewrite (M y). cbn. tauto.
Qed.

Lemma Set_from_app (l more : list A) :
  exists rest, Set_from (l ++ more) = Set_from l ++ rest.
Proof.
  unfold Set_from. rewrite fold_left_app.
  destruct (Set_fold_spec more (fold_left Set_add l [])) as (_ & _ & R); [| exact R].
  apply Set_from_spec.
Qed.

Lemma dropdownOptions_values repos (field : Repo.t -> A) h :
  map DropdownOption.value (dropdownOptions repos field h)
  = Set_from (map field (elements h repos)).
Proof.
  unfold dropdownOptions. rewrite map_map. cbn. apply map_id.
Qed.

End SetFacts.

(** X15.  The options of a dropdown have pairwise distinct values, so the
    [key] of every [option] element is unique; the values are exactly the
    values the field takes on the records of the collection; the label of
    an option is its value; and the options come in the order in which
    their values first occur: records appended to the collection only
    append options. *)
Theorem dropdownOptions_distinct {A} `{EqDecision A} repos (field : Repo.t -> A) h :
  NoDup (map DropdownOption.value (dropdownOptions repos field h))
  /\ (forall d,
        In d (map DropdownOption.value (dropdownOptions repos field h))
        <-> exists repo, In repo (elements h repos) /\ field repo = d)
  /\ Forall (fun o => DropdownOption.label o = DropdownOption.value o)
       (dropdownOptions repos field h)
  /\ (forall h2 more,
        elements h2 repos = elements h repos ++ more ->
        exists rest,
          map DropdownOption.value (dropdownOptions repos field h2)
          = map DropdownOption.value (dropdownOptions repos field h) ++ rest).
Proof.
  rewrite dropdownOptions_values.
  destruct (Set_from_spec (map field (elements h repos))) as (N & M).
  split; [exact N |]. split; [| split].
  - intros d. rewrite M, in_map_iff. split.
    + intros (repo & E & Hr). now exists repo.
    + intros (repo & Hr & E). now exists repo.
  - unfold dropdownOptions. apply List.Forall_forall. intros o Ho.
    apply in_map_iff in Ho as (d & <- & _). reflexivity.
  - intros h2 more E. rewrite dropdownOptions_values, E, map_app.
    apply Set_from_app.
Qed.

Lemma dropdownOptions_distinct_witness :
  exists rest,
    map DropdownOption.value
      (dropdownOptions 0%nat Repo.licenseName [[coreApi; corefront; widget]])
    = map DropdownOption.value
        (dropdownOptions 0%nat Repo.licenseName [[coreApi; corefront]]) ++ rest.
Proof.
  apply (proj2 (proj2 (proj2
           (dropdownOptions_distinct 0%nat Repo.licenseName [[coreApi; corefront]])))
           [[coreApi; corefront; widget]] [widget]).
  reflexivity.
Defined.

(** X16.  Every option of the license dropdown other than the sentinel,
    selected alone from the initial state, keeps the records whose license
    is the value of the option, and keeps at least one record. *)
Theorem license_option_selects_its_records repos h collection v :
  h !! repos = Some collection ->
  In v (map DropdownOption.value (dropdownOptions repos Repo.licenseName h)) ->
  v <> "all" ->
  exists kept,
    rendered (filterRepos (onLicenseNameChange [v] initialFilters) repos h) = Normal kept
    /\ kept <> []
    /\ kept = List.filter (fun repo => String.eqb (Repo.licenseName repo) v) collection.
Proof.
  intros Hr Hv Hall.
  assert (K : forall repo,
             keeps (onLicenseNameChange [v] initialFilters) repo
             = String.eqb (Repo.licenseName repo) v).
  { intros repo. apply eq_true_iff_eq.
    rewrite keeps_clauses, nameClause_true, licenseClause_true,
      collaboratorsClause_true, String.eqb_eq.
    cbn [onLicenseNameChange initialFilters Filter.repositoryName
           Filter.licenseName Filter.collaboratorsCount In].
    split.
    - intros (_ & [[=] | [[E | []] | [E | []]]] & _); congruence.
    - intros E. split; [exact I |]. split; [| exact I]. right; left; left.
      now symmetry. }
  exists (List.filter (fun repo => String.eqb (Repo.licenseName repo) v) collection).
  split; [| split; [| reflexivity]].
  - rewrite filterRepos_run. cbn [rendered].
    rewrite elements_alloc, (elements_lookup _ _ _ Hr). f_equal.
    now apply filter_ext.
  - rewrite dropdownOptions_values in Hv.
    apply Set_from_spec, in_map_iff in Hv as (repo & E & Hin).
    rewrite (elements_lookup _ _ _ Hr) in Hin.
    intros Hnil.
    assert (Hk : In repo (List.filter
                            (fun repo => String.eqb (Repo.licenseName repo) v)
                            collection)).
    { apply filter_In. split; [exact Hin | now apply String.eqb_eq]. }
    rewrite Hnil in Hk. destruct Hk.
Qed.

Lemma license_option_selects_its_records_witness :
  exists kept,
    rendered (filterRepos (onLicenseNameChange ["Apache-2.0"] initialFilters) 0%nat
                [[coreApi; widget; corefront]])
    = Normal kept
    /\ kept <> []
    /\ kept = List.filter (fun repo => String.eqb (Repo.licenseName repo) "Apache-2.0")
                [coreApi; widget; corefront].
Proof.
  apply (license_option_selects_its_records 0%nat [[coreApi; widget; corefront]]
           [coreApi; widget; corefront] "Apache-2.0").
  - reflexivity.
  - vm_compute. tauto.
  - discriminate.
Defined.

Lemma dataGridColumns_sortable key :
  In key (map Column.key dataGridColumns) -> In key sortableKeys.
Proof.
  cbn. intros [<- | [<- | [<- | []]]]; tauto.
Qed.

(** X17.  Every column of the grid has a key that [getComparator] accepts,
    so no sort state made of grid columns makes the pipeline throw: some
    sequence of rows is always rendered. *)
Theorem grid_sort_never_throws localeCompare repos globalFilters sortColumns h :
  Forall (fun s => In (columnKey s) (map Column.key dataGridColumns)) sortColumns ->
  Forall (fun s => exists comparator,
              getComparator localeCompare (columnKey s) = Normal comparator)
    sortColumns
  /\ exists displayed,
       rendered (rows localeCompare repos globalFilters sortColumns h)
       = Normal displayed.
Proof.
  intros Hg.
  assert (Hk : Forall (fun s => In (columnKey s) sortableKeys) sortColumns).
  { eapply Forall_impl; [exact Hg |]. intros s. apply dataGridColumns_sortable. }
  split.
  - eapply Forall_impl; [exact Hk |]. intros s Hs.
    now apply getComparator_sortable.
  - destruct sortColumns as [| sort rest].
    + rewrite rendered_rows_empty. now eexists.
    + rewrite rendered_rows_nonempty.
      rewrite (sortList_pure _ _ (sortCallback_chain localeCompare _ Hk)).
      now eexists.
Qed.

Lemma grid_sort_never_throws_witness :
  Forall (fun s => exists comparator,
              getComparator codeUnitCompare (columnKey s) = Normal comparator)
    [{| columnKey := "licenseName"; direction := ASC |};
     {| columnKey := "collaboratorsCount"; direction := DESC |}]
  /\ exists displayed,
       rendered (rows codeUnitCompare 0%nat initialFilters
                   [{| columnKey := "licenseName"; direction := ASC |};
                    {| columnKey := "collaboratorsCount"; direction := DESC |}]
                   [[coreApi; widget; corefront]])
       = Normal displayed.
Proof.
  apply (grid_sort_never_throws codeUnitCompare 0%nat initialFilters
           [{| columnKey := "licenseName"; direction := ASC |};
            {| columnKey := "collaboratorsCount"; direction := DESC |}]
           [[coreApi; widget; corefront]]).
  repeat constructor; cbn; tauto.
Defined.

(** X18.  For each of the ten counter keys the comparator of
    [getComparator] does not depend on the collation and returns -1, 0 or 1
    as the counter of the first record is below, equal to or above that of
    the second; swapping the records negates the result and "not after" is
    transitive. *)
Theorem numeric_comparator_sign localeCompare key :
  In key [ "closedIssuesCount"; "collaboratorsCount"; "discussionsCount";
           "forksCount"; "issuesCount"; "mergedPullRequestsCount";
           "openIssuesCount"; "openPullRequestsCount"; "projectsCount";
           "watchersCount" ] ->
  exists field comparator,
    property numberColumns key = Some field
    /\ getComparator localeCompare key = Normal comparator
    /\ (forall a b,
          comparator a b
          = match field a ?= field b with
            | Lt => -1
            | Eq => 0
            | Gt => 1
            end)
    /\ (forall a b, comparator b a = - comparator a b)
    /\ (forall a b c, comparator a b <= 0 -> comparator b c <= 0 -> comparator a c <= 0).
Proof.
  intros Hk.
  destruct (property_Some numberColumns key Hk) as (field & P).
  exists field, (numberComparator field).
  split; [exact P |]. split; [unfold getComparator; now rewrite P |].
  assert (S : forall a b,
             numberComparator field a b
             = match field a ?= field b with
               | Lt => -1
               | Eq => 0
               | Gt => 1
               end).
  { intros a b. unfold numberComparator.
    destruct (Z.compare_spec (field a) (field b)),
      (Z.eqb_spec (field a) (field b)), (Z.gtb_spec (field a) (field b));
      lia || reflexivity. }
  split; [exact S |]. split.
  - intros a b. rewrite !S, (Z.compare_antisym (field a) (field b)).
    now destruct (field a ?= field b).
  - apply (consistent_trans _ (numberComparator_consistent field)).
Qed.

Lemma numeric_comparator_sign_witness :
  exists field comparator,
    property numberColumns "forksCount" = Some field
    /\ getComparator codeUnitCompare "forksCount" = Normal comparator
    /\ (forall a b,
          comparator a b
          = match field a ?= field b with
            | Lt => -1
            | Eq => 0
            | Gt => 1
            end)
    /\ (forall a b, comparator b a = - comparator a b)
    /\ (forall a b c, comparator a b <= 0 -> comparator b c <= 0 -> comparator a c <= 0).
Proof.
  apply (numeric_comparator_sign codeUnitCompare "forksCount").
  cbn. tauto.
Defined.

Lemma sortCallback_single_string localeCompare key field d a b :
  property numberColumns key = None ->
  property stringColumns key = Some field ->
  sortCallback localeCompare [{| columnKey := key; direction := d |}] a b
  = Normal (directed d (stringComparator localeCompare field a b)).
Proof.
  intros N P. cbn [sortCallback columnKey direction]. unfold getComparator.
  rewrite N, P. cbn.
  destruct (Z.eqb_spec (stringComparator localeCompare field a b) 0) as [-> | _];
    cbn; [| reflexivity].
  now destruct d.
Qed.

(** X19.  Sorting by a single name column under a consistent collation
    throws nothing and returns the records of the input ordered by the
    collation of their lower-cased names: for [ASC] no record is followed by
    one whose lower-cased name the collation puts before its own, and for
    [DESC] the other way round. *)
Theorem single_string_column_order localeCompare repos key d inputRepos h :
  consistent localeCompare ->
  In key ["licenseName"; "repoName"; "repositoryName"] ->
  exists field sorted,
    property stringColumns key = Some field
    /\ rendered (sortRepos localeCompare repos
                   [{| columnKey := key; direction := d |}] inputRepos h)
       = Normal sorted
    /\ Permutation (elements h inputRepos) sorted
    /\ StronglySorted
         (fun a b =>
            match d with
            | ASC =>
                localeCompare (toLowerCase (field a)) (toLowerCase (field b)) <= 0
            | DESC =>
                localeCompare (toLowerCase (field b)) (toLowerCase (field a)) <= 0
            end) sorted.
Proof.
  intros Hl Hk.
  assert (F : exists field,
             property numberColumns key = None
             /\ property stringColumns key = Some field).
  { cbn [In] in Hk. destruct Hk as [<- | [<- | [<- | []]]]; eexists; split; reflexivity. }
  destruct F as (field & N & P).
  set (c := fun a b => directed d (stringComparator localeCompare field a b)).
  assert (Hs : consistent (stringComparator localeCompare field))
    by now apply stringComparator_consistent.
  assert (Hc : consistent c) by apply (consistent_directed _ Hs d).
  exists field, (sortPure c (elements h inputRepos)).
  split; [exact P |]. split; [| split].
  - rewrite sortRepos_nonempty.
    rewrite (sortList_pure _ c
               (fun a b => sortCallback_single_string localeCompare key field d a b N P)).
    cbn [rendered]. now rewrite elements_alloc.
  - apply sortPure_Permutation.
  - eapply StronglySorted_weaken; [| apply (sortPure_sorted c Hc)].
    intros x y. unfold notAfter, c.
    pose proof (consistent_flip _ Hs x y) as Fl. unfold stringComparator in *.
    destruct d; cbn [directed]; lia.
Qed.

Lemma single_string_column_order_witness :
  exists field sorted,
    property stringColumns "repositoryName" = Some field
    /\ rendered (sortRepos codeUnitCompare 0%nat
                   [{| columnKey := "repositoryName"; direction := ASC |}] 0%nat
                   [[widget; corefront; coreApi]])
       = Normal sorted
    /\ Permutation (elements [[widget; corefront; coreApi]] 0%nat) sorted
    /\ StronglySorted
         (fun a b =>
            codeUnitCompare (toLowerCase (field a)) (toLowerCase (field b)) <= 0)
         sorted.
Proof.
  apply (single_string_column_order codeUnitCompare 0%nat "repositoryName" ASC 0%nat
           [[widget; corefront; coreApi]]).
  - exact codeUnitCompare_consistent.
  - cbn. tauto.
Defined.
